(** * Component scanning (src/scan.ts)

    A shallow embedding of [scan.ts]: the naming rule applied to every
    discovered file, the directory prefix, the eager/lazy pair pushed for
    each accepted file, the depth-first ordering of the scan directories and
    the [matcher] query.

    JavaScript strings are modelled by [string] (sequences of 8-bit code
    units).  The functions of [lodash] are modelled on ASCII code units, on
    which the model follows lodash's word-splitting regular expressions;
    every other code unit is treated as a word break.  Node's [path] module,
    [process.platform] and [globby] depend on the machine the scan runs on:
    they are the fields of the class [Host]. *)

From Stdlib Require Import Ascii ZArith Lia Sorted Permutation.
From stdpp Require Import gmap strings list sorting.


(** ** JavaScript string and array primitives *)

Module JS.

Definition backslash : ascii := ascii_of_nat 92.
Definition quote : string := String (ascii_of_nat 34) "".
Definition newline : string := String (ascii_of_nat 10) "".

(** A value is falsy when it is the empty string. *)
Definition truthy (s : string) : bool :=
  match s with "" => false | _ => true end.

(** [a || b] on strings. *)
Definition or_else (a b : string) : string :=
  if truthy a then a else b.

(** [s.startsWith(p)] *)
Fixpoint startsWith (s p : string) : bool :=
  match p, s with
  | "", _ => true
  | String _ _, "" => false
  | String b p', String a s' => Ascii.eqb a b && startsWith s' p'
  end.

(** [s.slice(n)] for [0 <= n] *)
Fixpoint slice_from (n : nat) (s : string) : string :=
  match n, s with
  | O, _ => s
  | S _, "" => ""
  | S n', String _ s' => slice_from n' s'
  end.

(** [s.replace(pat, rep)] with a string pattern: the first occurrence of
    [pat] is replaced ([rep] holds no dollar sign in scan.ts). *)
Fixpoint replace (s pat rep : string) : string :=
  if startsWith s pat then rep +:+ slice_from (String.length pat) s
  else match s with
       | "" => ""
       | String a s' => String a (replace s' pat rep)
       end.

(** [s.replace(/c/g, rep)] for a one-character class [c] *)
Fixpoint replace_all (c : ascii) (rep : string) (s : string) : string :=
  match s with
  | "" => ""
  | String a s' =>
      if Ascii.eqb a c then rep +:+ replace_all c rep s'
      else String a (replace_all c rep s')
  end.

(** [s.replace(/^c/, '')] *)
Definition strip_leading (c : ascii) (s : string) : string :=
  match s with
  | String a s' => if Ascii.eqb a c then s' else s
  | "" => ""
  end.

(** [s.replace(/c$/, '')] *)
Fixpoint strip_trailing (c : ascii) (s : string) : string :=
  match s with
  | "" => ""
  | String a "" => if Ascii.eqb a c then "" else s
  | String a s' => String a (strip_trailing c s')
  end.

(** [s.split(/[\\/]/)]: the pieces between separators, empty ones
    included. *)
Definition is_separator (a : ascii) : bool :=
  Ascii.eqb a "/"%char || Ascii.eqb a backslash.

Fixpoint split_go (is_sep : ascii -> bool) (cur : string) (s : string)
  : list string :=
  match s with
  | "" => [String.rev cur]
  | String a s' =>
      if is_sep a then String.rev cur :: split_go is_sep "" s'
      else split_go is_sep (String a cur) s'
  end.

Definition split_separators (s : string) : list string :=
  split_go is_separator "" s.

(** [l.join(glue)] *)
Fixpoint join_with (glue : string) (l : list string) : string :=
  match l with
  | [] => ""
  | [x] => x
  | x :: l' => x +:+ glue +:+ join_with glue l'
  end.

(** [l.includes(x)] *)
Definition includes (l : list string) (x : string) : bool :=
  existsb (String.eqb x) l.

(** [Array.prototype.sort(cmp)]: a stable sort; elements the comparator
    ranks equal keep their order. *)
Fixpoint insert_by {A} (cmp : A -> A -> Z) (x : A) (l : list A) : list A :=
  match l with
  | [] => [x]
  | y :: l' => if (cmp x y <=? 0)%Z then x :: l else y :: insert_by cmp x l'
  end.

Definition sort {A} (cmp : A -> A -> Z) (l : list A) : list A :=
  foldr (insert_by cmp) [] l.

End JS.

(** ** lodash: [camelCase], [kebabCase], [upperFirst] *)

Module Lodash.

Definition code (a : ascii) : nat := nat_of_ascii a.

Definition isLower (a : ascii) : bool := (97 <=? code a) && (code a <=? 122).
Definition isUpper (a : ascii) : bool := (65 <=? code a) && (code a <=? 90).
Definition isDigit (a : ascii) : bool := (48 <=? code a) && (code a <=? 57).
Definition isLetter (a : ascii) : bool := isLower a || isUpper a.
Definition isAlnum (a : ascii) : bool := isLetter a || isDigit a.

Definition toLower (a : ascii) : ascii :=
  if isUpper a then ascii_of_nat (code a + 32) else a.
Definition toUpper (a : ascii) : ascii :=
  if isLower a then ascii_of_nat (code a - 32) else a.

Definition toLowerCase (w : list ascii) : list ascii := map toLower w.

(** [upperFirst] *)
Definition upperFirst_chars (w : list ascii) : list ascii :=
  match w with
  | [] => []
  | a :: w' => toUpper a :: w'
  end.

Definition capitalize (w : list ascii) : list ascii :=
  upperFirst_chars (toLowerCase w).

(** [reHasUnicodeWord]:
    [/[a-z][A-Z]|[A-Z]{2}[a-z]|[0-9][a-zA-Z]|[a-zA-Z][0-9]|[^a-zA-Z0-9 ]/] *)
Fixpoint hasUnicodeWord (s : list ascii) : bool :=
  match s with
  | [] => false
  | a :: t =>
      negb (isAlnum a || Ascii.eqb a " "%char)
      || match t with
         | b :: t' =>
             (isLower a && isUpper b)
             || (isDigit a && isLetter b)
             || (isLetter a && isDigit b)
             || (isUpper a && isUpper b
                 && match t' with c :: _ => isLower c | [] => false end)
         | [] => false
         end
      || hasUnicodeWord t
  end.

(** [reAsciiWord]: the maximal runs of letters and digits. *)
Definition flush (cur : list ascii) : list (list ascii) :=
  match cur with [] => [] | _ => [rev cur] end.

Fixpoint asciiWords_go (cur : list ascii) (s : list ascii)
  : list (list ascii) :=
  match s with
  | [] => flush cur
  | a :: t =>
      if isAlnum a then asciiWords_go (a :: cur) t
      else flush cur ++ asciiWords_go [] t
  end.

Definition asciiWords (s : list ascii) : list (list ascii) :=
  asciiWords_go [] s.

(** The longest prefix whose elements satisfy [p], and the rest. *)
Fixpoint span {A} (p : A -> bool) (l : list A) : list A * list A :=
  match l with
  | [] => ([], [])
  | a :: t =>
      if p a then let '(u, v) := span p t in (a :: u, v) else ([], l)
  end.

Definition isDigit123 (a : ascii) : bool := (49 <=? code a) && (code a <=? 51).

(** [rsOrdLower] and [rsOrdUpper]: after a run of digits ending in [d],
    the two letters of an ordinal, when what follows them lets the
    look-ahead succeed. *)
Definition ordinal_suffix (d : ascii) (rest : list ascii)
  : option (list ascii * list ascii) :=
  match rest with
  | x :: y :: rest' =>
      let lower :=
        match d, x, y with
        | "1", "s", "t" | "2", "n", "d" | "3", "r", "d" => true
        | _, "t", "h" => negb (isDigit123 d)
        | _, _, _ => false
        end%char in
      let upper :=
        match d, x, y with
        | "1", "S", "T" | "2", "N", "D" | "3", "R", "D" => true
        | _, "T", "H" => negb (isDigit123 d)
        | _, _, _ => false
        end%char in
      let ahead (blocked : ascii -> bool) :=
        match rest' with
        | [] => true
        | z :: _ => negb (blocked z || isDigit z)
        end in
      if upper && ahead isUpper then Some ([x; y], rest')
      else if lower && ahead isLower then Some ([x; y], rest')
      else None
  | _ => None
  end.

(** [reUnicodeWord] on ASCII input: the match that starts at the head [a]
    of [a :: t], if there is one, and what is left to read. *)
Definition nextWord (a : ascii) (t : list ascii)
  : option (list ascii) * list ascii :=
  if isLower a then
    let '(lo, rest) := span isLower t in (Some (a :: lo), rest)
  else if isUpper a then
    let '(up, rest) := span isUpper t in
    match up with
    | [] =>
        let '(lo, rest') := span isLower rest in (Some (a :: lo), rest')
    | _ :: _ =>
        match rest with
        | b :: _ =>
            if isLower b
            then (Some (removelast (a :: up)), List.last up a :: rest)
            else (Some (a :: up), rest)
        | [] => (Some (a :: up), [])
        end
    end
  else if isDigit a then
    let '(ds, rest) := span isDigit t in
    match ordinal_suffix (List.last ds a) rest with
    | Some (suffix, rest') => (Some ((a :: ds) ++ suffix), rest')
    | None => (Some (a :: ds), rest)
    end
  else (None, t).

(** All the matches.  [fuel] bounds their number; the length of the input
    is enough ([unicodeWords_go_fuel]). *)
Fixpoint unicodeWords_go (fuel : nat) (s : list ascii)
  : list (list ascii) :=
  match fuel, s with
  | O, _ | _, [] => []
  | S fuel', a :: t =>
      let '(word, rest) := nextWord a t in
      match word with
      | Some w => w :: unicodeWords_go fuel' rest
      | None => unicodeWords_go fuel' rest
      end
  end.

Definition unicodeWords (s : list ascii) : list (list ascii) :=
  unicodeWords_go (length s) s.

(** [words(string)] without a pattern *)
Definition words (s : list ascii) : list (list ascii) :=
  if hasUnicodeWord s then unicodeWords s else asciiWords s.

(** [createCompounder]: apostrophes are removed before the words are
    taken, and the callback folds the words from the empty string. *)
Definition compound (callback : list ascii -> list ascii -> nat -> list ascii)
    (s : string) : string :=
  let chars :=
    filter (fun a => a ≠ "'"%char) (String.list_ascii_of_string s) in
  String.string_of_list_ascii
    (fst (fold_left
            (fun '(result, index) word =>
               (callback result word index, S index))
            (words chars) ([], O))).

Definition camelCase : string -> string :=
  compound (fun result word index =>
    let word := toLowerCase word in
    result ++ match index with O => word | S _ => capitalize word end).

Definition kebabCase : string -> string :=
  compound (fun result word index =>
    result ++ match index with O => [] | S _ => ["-"%char] end
           ++ toLowerCase word).

Definition upperFirst (s : string) : string :=
  String.string_of_list_ascii (upperFirst_chars (String.list_ascii_of_string s)).

End Lodash.

(** ** Completion of a call: a value, or a thrown exception *)

Inductive result (A : Type) : Type :=
| Ok (a : A)
| Throw (e : string).
Arguments Ok {A} a.
Arguments Throw {A} e.

#[global] Instance result_ret : MRet result := fun _ a => Ok a.
#[global] Instance result_bind : MBind result := fun _ _ f m =>
  match m with
  | Ok a => f a
  | Throw e => Throw e
  end.

(** ** The data model *)

Record Component := mkComponent {
  pascalName : string;
  kebabName : string;
  import : string;
  asyncImport : string;
  export : string;
  filePath : string;
  shortPath : string;
  async : option bool;
  chunkName : string;
  global : bool
}.

(** [pattern?: string | string[]] *)
Inductive Pattern :=
| OnePattern (p : string)
| ManyPatterns (ps : list string).

(** [global?: boolean | 'dev'] *)
Inductive GlobalFlag :=
| GlobalBool (b : bool)
| GlobalDev.

(** A call of the [extendComponent] hook returns a component, or nothing
    (the draft is kept: a hook that changes its argument in place is
    represented by the component it leaves), or throws. *)
Record ScanDir := mkScanDir {
  path : string;
  pattern : option Pattern;
  ignore : option (list string);
  prefix : option string;
  dirGlobal : option GlobalFlag;
  extendComponent : option (Component -> result (option Component))
}.

(** [Boolean(global)] *)
Definition Boolean (g : option GlobalFlag) : bool :=
  match g with
  | None => false
  | Some (GlobalBool b) => b
  | Some GlobalDev => true
  end.

(** ** The host: Node's [path], [process.platform] and [globby] *)

Class Host := {
  basename : string -> option string -> string;
  extname : string -> string;
  join : string -> string -> string;
  dirname : string -> string;
  relative : string -> string -> string;
  sep : string;
  isWindows : bool;
  globby : option Pattern -> string -> list string -> result (list string)
}.

Definition LAZY_PREFIX : string := "lazy".

Definition pascalCase (str : string) : string :=
  Lodash.upperFirst (Lodash.camelCase str).

(** [sortDirsByPathLength]: the number of non-empty pieces of the path. *)
Definition pathLength (p : string) : nat :=
  length (filter (fun s => JS.truthy s = true) (JS.split_separators p)).

Definition sortDirsByPathLength (a b : ScanDir) : Z :=
  (Z.of_nat (pathLength (path b)) - Z.of_nat (pathLength (path a)))%Z.

(** [prefixComponent(prefix = '', component)] *)
Definition prefixComponent (prefix : option string) (c : Component)
  : Component :=
  let prefix := default "" prefix in
  {| pascalName :=
       if JS.startsWith (pascalName c) prefix then pascalName c
       else pascalCase prefix +:+ pascalName c;
     kebabName :=
       if JS.startsWith (kebabName c) prefix then kebabName c
       else Lodash.kebabCase prefix +:+ "-" +:+ kebabName c;
     import := import c;
     asyncImport := asyncImport c;
     export := export c;
     filePath := filePath c;
     shortPath := shortPath c;
     async := async c;
     chunkName := chunkName c;
     global := global c |}.

(** [matcher(tags, components)] *)
Definition matches (tag : string) (c : Component) : bool :=
  JS.includes [pascalName c; kebabName c] tag.

Definition matcher (tags : list string) (components : list Component)
  : list Component :=
  fold_left
    (fun matches_ tag =>
       match find (matches tag) components with
       | Some match_ => matches_ ++ [match_]
       | None => matches_
       end)
    tags [].

(** ** scanComponents *)

(** The state of one run: the result list, the claimed file paths, the roots
    already scanned, and what was written with [console.warn]. *)
Record Run := mkRun {
  components : list Component;
  filePaths : gset string;
  scannedPaths : list string;
  console : list string
}.

Definition newRun : Run :=
  {| components := []; filePaths := ∅; scannedPaths := []; console := [] |}.

Section Scan.
Context `{Host}.

(** Lines 62-70: the name a file resolves to under the root [root]. *)
Definition resolveName (root filePath : string) : string :=
  let componentName :=
    pascalCase (basename filePath (Some (extname filePath))) in
  let parentDirName := pascalCase (basename (dirname filePath) None) in
  let pathPrefix := pascalCase (relative root (dirname filePath)) in
  if JS.includes ["Index"; parentDirName] componentName then pathPrefix
  else if negb (JS.startsWith componentName
                  (JS.strip_trailing "s"%char pathPrefix))
  then pathPrefix +:+ sep +:+ componentName
  else componentName.

(** Lines 74-77 *)
Definition collisionWarning (componentName filePath other : string)
  : string :=
  "Two component files resolving to the same name `" +:+ componentName
    +:+ "`:" +:+ JS.newline
    +:+ JS.newline +:+ " - " +:+ filePath
    +:+ JS.newline +:+ " - " +:+ other.

(** Lines 88-91: on Windows every backslash of the path is doubled. *)
Definition embeddedPath (filePath : string) : string :=
  if isWindows
  then JS.replace_all JS.backslash
         (String JS.backslash (String JS.backslash "")) filePath
  else filePath.

(** Lines 82-103: the component handed to [extendComponent]. *)
Definition draftComponent (d : ScanDir) (srcDir filePath componentName : string)
  : Component :=
  let pascalName := pascalCase componentName in
  let kebabName := Lodash.kebabCase componentName in
  let shortPath :=
    JS.strip_leading "/"%char
      (JS.replace_all JS.backslash "/" (JS.replace filePath srcDir "")) in
  let chunkName := JS.replace shortPath (extname shortPath) "" in
  let filePath := embeddedPath filePath in
  let chunkName :=
    if isWindows then JS.replace chunkName "/" "_" else chunkName in
  prefixComponent (prefix d)
    {| filePath := filePath;
       pascalName := pascalName;
       kebabName := kebabName;
       chunkName := chunkName;
       shortPath := shortPath;
       import := "";
       asyncImport := "";
       export := "default";
       async := None;
       global := Boolean (dirGlobal d) |}.

(** Lines 105-107 *)
Definition extend (d : ScanDir) (_c : Component) : result Component :=
  match extendComponent d with
  | Some hook => r ← hook _c; mret (default _c r)
  | None => mret _c
  end.

(** Lines 109-110 *)
Definition defaultImport (_c : Component) : string :=
  "require('" +:+ filePath _c +:+ "')." +:+ export _c.

Definition defaultAsyncImport (_c : Component) : string :=
  "function () { return import('" +:+ filePath _c
    +:+ "' /* webpackChunkName: " +:+ JS.quote +:+ chunkName _c
    +:+ JS.quote +:+ " */).then(function(m) { return m['" +:+ export _c
    +:+ "'] || m }) }".

(** Lines 112-115 *)
Definition eagerComponent (_c : Component) : Component :=
  {| pascalName := pascalName _c;
     kebabName := kebabName _c;
     import := JS.or_else (import _c) (defaultImport _c);
     asyncImport := asyncImport _c;
     export := export _c;
     filePath := filePath _c;
     shortPath := shortPath _c;
     async := async _c;
     chunkName := chunkName _c;
     global := global _c |}.

(** Lines 117-121 *)
Definition lazyComponent (_c : Component) : Component :=
  prefixComponent (Some LAZY_PREFIX)
    {| pascalName := pascalName _c;
       kebabName := kebabName _c;
       import := JS.or_else (asyncImport _c) (defaultAsyncImport _c);
       asyncImport := asyncImport _c;
       export := export _c;
       filePath := filePath _c;
       shortPath := shortPath _c;
       async := Some true;
       chunkName := chunkName _c;
       global := global _c |}.

Definition emitted (_c : Component) : list Component :=
  [eagerComponent _c; lazyComponent _c].

(** Line 54: [scannedPaths.find(d => filePath.startsWith(d))] as a
    condition; the root found is a string, and an empty one is falsy. *)
Definition alreadyScanned (run : Run) (filePath : string) : bool :=
  match find (fun d => JS.startsWith filePath d) (scannedPaths run) with
  | Some d => JS.truthy d
  | None => false
  end.

(** [filePaths.add], [console.warn], [components.push] *)
Definition claim (filePath : string) (run : Run) : Run :=
  {| components := components run;
     filePaths := {[filePath]} ∪ filePaths run;
     scannedPaths := scannedPaths run;
     console := console run |}.

Definition warn (message : string) (run : Run) : Run :=
  {| components := components run;
     filePaths := filePaths run;
     scannedPaths := scannedPaths run;
     console := console run ++ [message] |}.

Definition push (cs : list Component) (run : Run) : Run :=
  {| components := components run ++ cs;
     filePaths := filePaths run;
     scannedPaths := scannedPaths run;
     console := console run |}.

(** [scannedPaths.push] *)
Definition scanned (root : string) (run : Run) : Run :=
  {| components := components run;
     filePaths := filePaths run;
     scannedPaths := scannedPaths run ++ [root];
     console := console run |}.

(** The body of the inner loop (lines 52-121) for one match [_file] of
    the directory [d]; [resolvedNames] is the map of the current
    directory. *)
Definition scanFile (d : ScanDir) (srcDir : string)
    (st : Run * gmap string string) (_file : string)
  : result (Run * gmap string string) :=
  let '(run, resolvedNames) := st in
  let filePath := join (path d) _file in
  if alreadyScanned run filePath then mret st
  else if bool_decide (filePath ∈ filePaths run) then mret st
  else
    let run := claim filePath run in
    let componentName := resolveName (path d) filePath in
    match resolvedNames !! componentName with
    | Some other =>
        mret (warn (collisionWarning componentName filePath other) run,
              resolvedNames)
    | None =>
        let resolvedNames := <[componentName := filePath]> resolvedNames in
        _c ← extend d (draftComponent d srcDir filePath componentName);
        mret (push (emitted _c) run, resolvedNames)
    end.

(** The inner loop over the matches of one directory. *)
Fixpoint scanFiles (d : ScanDir) (srcDir : string) (files : list string)
    (st : Run * gmap string string) : result (Run * gmap string string) :=
  match files with
  | [] => mret st
  | _file :: files' =>
      st' ← scanFile d srcDir st _file;
      scanFiles d srcDir files' st'
  end.

(** The body of the outer loop (lines 49-124). *)
Definition scanDir (d : ScanDir) (srcDir : string) (run : Run)
  : result Run :=
  files ← globby (pattern d) (path d) (default [] (ignore d));
  st ← scanFiles d srcDir files (run, ∅);
  mret (scanned (path d) st.1).

Fixpoint scanDirs (dirs : list ScanDir) (srcDir : string) (run : Run)
  : result Run :=
  match dirs with
  | [] => mret run
  | d :: dirs' =>
      run' ← scanDir d srcDir run;
      scanDirs dirs' srcDir run'
  end.

(** What a call leaves behind: the contents of the array [dirs], which
    [sort] reorders in place before the first directory is read, and the
    completion of the promise, with the warnings written meanwhile. *)
Record Outcome := mkOutcome {
  dirsAfter : list ScanDir;
  completion : result (list Component * list string)
}.

Definition scanComponents (dirs : list ScanDir) (srcDir : string)
  : Outcome :=
  let sorted := JS.sort sortDirsByPathLength dirs in
  {| dirsAfter := sorted;
     completion :=
       run ← scanDirs sorted srcDir newRun;
       mret (components run, console run) |}.

End Scan.

(** ** A POSIX host

    Node's [path.posix] for a process whose working directory is [cwd], and
    a file system given by what [globby] answers.  [basename p (Some ext)] is
    the one of Node when [ext] is empty or a proper suffix of the last
    segment of [p], which is how scan.ts calls it. *)

Module Posix.

Definition is_slash (a : ascii) : bool := Ascii.eqb a "/"%char.

Definition segments (p : string) : list string :=
  filter (fun s => JS.truthy s = true) (JS.split_go is_slash "" p).

Definition isAbsolute (p : string) : bool := JS.startsWith p "/".

Fixpoint endsWith_slash (p : string) : bool :=
  match p with
  | "" => false
  | String a "" => is_slash a
  | String _ p' => endsWith_slash p'
  end.

(** [normalizeString]: [stack] holds the segments kept so far, last
    first. *)
Fixpoint normalizeString (allowAboveRoot : bool) (stack segs : list string)
  : list string :=
  match segs with
  | [] => rev stack
  | seg :: segs' =>
      if bool_decide (seg = ".") then
        normalizeString allowAboveRoot stack segs'
      else if bool_decide (seg = "..") then
        match stack with
        | top :: stack' =>
            if bool_decide (top = "..")
            then normalizeString allowAboveRoot (seg :: stack) segs'
            else normalizeString allowAboveRoot stack' segs'
        | [] =>
            if allowAboveRoot
            then normalizeString allowAboveRoot [seg] segs'
            else normalizeString allowAboveRoot [] segs'
        end
      else normalizeString allowAboveRoot (seg :: stack) segs'
  end.

Definition normalize (p : string) : string :=
  match p with
  | "" => "."
  | _ =>
      let body :=
        JS.join_with "/" (normalizeString (negb (isAbsolute p)) [] (segments p)) in
      match body with
      | "" =>
          if isAbsolute p then "/"
          else if endsWith_slash p then "./" else "."
      | _ =>
          (if isAbsolute p then "/" else "")
            +:+ body +:+ (if endsWith_slash p then "/" else "")
      end
  end.

Definition join (a b : string) : string :=
  match filter (fun s => JS.truthy s = true) [a; b] with
  | [] => "."
  | parts => normalize (JS.join_with "/" parts)
  end.

(** [resolve(p)] as a list of segments, for an absolute [cwd]. *)
Definition resolve (cwd p : string) : list string :=
  normalizeString false []
    (segments (if isAbsolute p then p else cwd +:+ "/" +:+ p)).

Fixpoint dropCommon (from to : list string) : list string * list string :=
  match from, to with
  | x :: from', y :: to' =>
      if bool_decide (x = y) then dropCommon from' to' else (from, to)
  | _, _ => (from, to)
  end.

Definition relative (cwd from to : string) : string :=
  let '(up, down) := dropCommon (resolve cwd from) (resolve cwd to) in
  JS.join_with "/" (map (fun _ => "..") up ++ down).

Definition lastSegment (p : string) : string :=
  List.last (segments p) "".

Fixpoint dropWhile {A} (f : A -> bool) (l : list A) : list A :=
  match l with
  | [] => []
  | a :: l' => if f a then dropWhile f l' else l
  end.

Definition dirname (p : string) : string :=
  match p with
  | "" => "."
  | _ =>
      let r := rev (String.list_ascii_of_string p) in
      let r := dropWhile is_slash r in
      let r := dropWhile (fun a => negb (is_slash a)) r in
      match r with
      | [] => if isAbsolute p then "/" else "."
      | _ :: [] => if isAbsolute p then "/" else "."
      | _ :: [a] =>
          if isAbsolute p then "//" else String a ""
      | _ :: pre => String.string_of_list_ascii (rev pre)
      end
  end.

Fixpoint take_string (n : nat) (s : string) : string :=
  match n, s with
  | S n', String a s' => String a (take_string n' s')
  | _, _ => ""
  end.

Definition basename (p : string) (ext : option string) : string :=
  let b := lastSegment p in
  match ext with
  | Some (String _ _ as e) =>
      if bool_decide (e = p) then ""
      else
        let n := String.length b - String.length e in
        if bool_decide (JS.slice_from n b = e) && negb (bool_decide (b = e))
        then take_string n b
        else b
  | _ => b
  end.

(** The index of the last dot of [s], counted from [i]. *)
Fixpoint lastDot (i : nat) (s : string) : option nat :=
  match s with
  | "" => None
  | String a s' =>
      match lastDot (S i) s' with
      | Some j => Some j
      | None => if Ascii.eqb a "."%char then Some i else None
      end
  end.

Definition extname (p : string) : string :=
  let b := lastSegment p in
  match lastDot 0 b with
  | None | Some O => ""
  | Some i => if bool_decide (b = "..") then "" else JS.slice_from i b
  end.

Definition host (cwd : string)
    (fs : option Pattern -> string -> list string -> result (list string))
  : Host :=
  Build_Host basename extname join dirname (relative cwd) "/" false fs.

End Posix.


(** A scan directory with a root and a pattern only. *)
Definition plainDir (root : string) : ScanDir :=
  {| path := root;
     pattern := Some (OnePattern "**/*.vue");
     ignore := None;
     prefix := None;
     dirGlobal := None;
     extendComponent := None |}.

(** A file system given by the matches under each root. *)
Definition tree (files : list (string * list string))
  : option Pattern -> string -> list string -> result (list string) :=
  fun _ cwd _ => Ok (default [] (snd <$> find (fun e => String.eqb e.1 cwd) files)).

(** ** Orders on keys *)

Section Keys.
Context {A : Type} (key : A -> nat).

Definition by_key_desc (a b : A) : Z := (Z.of_nat (key b) - Z.of_nat (key a))%Z.
Definition deeper_first (a b : A) : Prop := key b <= key a.

End Keys.

(** ** Steps and traces of the loops *)

Section Traces.
Context `{Host}.

(** What the body of the inner loop does with a match, case by case. *)
Inductive fileStep (d : ScanDir) (srcDir _file : string)
  : Run * gmap string string -> Run * gmap string string -> Prop :=
| step_scanned run names :
    alreadyScanned run (join (path d) _file) = true ->
    fileStep d srcDir _file (run, names) (run, names)
| step_claimed run names :
    alreadyScanned run (join (path d) _file) = false ->
    join (path d) _file ∈ filePaths run ->
    fileStep d srcDir _file (run, names) (run, names)
| step_collision run names other :
    let filePath := join (path d) _file in
    let componentName := resolveName (path d) filePath in
    alreadyScanned run filePath = false ->
    filePath ∉ filePaths run ->
    names !! componentName = Some other ->
    fileStep d srcDir _file (run, names)
      (warn (collisionWarning componentName filePath other)
         (claim filePath run), names)
| step_accepted run names _c :
    let filePath := join (path d) _file in
    let componentName := resolveName (path d) filePath in
    alreadyScanned run filePath = false ->
    filePath ∉ filePaths run ->
    names !! componentName = None ->
    extend d (draftComponent d srcDir filePath componentName) = Ok _c ->
    fileStep d srcDir _file (run, names)
      (push (emitted _c) (claim filePath run),
       <[componentName := filePath]> names).

(** *** The files a scan accepts

    An accepted file is recorded with its path and the component that
    [extendComponent] left for it. *)

Definition nameOf (d : ScanDir) (a : string * Component) : string :=
  resolveName (path d) a.1.

Definition acceptedBy (d : ScanDir) (srcDir : string)
    (a : string * Component) : Prop :=
  extend d (draftComponent d srcDir a.1 (nameOf d a)) = Ok a.2.

Definition pairsOf {A} (component : A -> Component) (acc : list A)
  : list Component :=
  flat_map (fun a => emitted (component a)) acc.

Record filesTrace (d : ScanDir) (srcDir : string)
    (st st' : Run * gmap string string)
    (acc : list (string * Component)) : Prop := {
  ft_components :
    components st'.1 = components st.1 ++ pairsOf snd acc;
  ft_scanned : scannedPaths st'.1 = scannedPaths st.1;
  ft_paths : filePaths st.1 ⊆ filePaths st'.1;
  ft_names : st.2 ⊆ st'.2;
  ft_nodup_paths : NoDup acc.*1;
  ft_nodup_names : NoDup (nameOf d <$> acc);
  ft_accepted :
    Forall (fun a =>
              (a.1 ∉ filePaths st.1) /\ (a.1 ∈ filePaths st'.1)
              /\ (st.2 !! nameOf d a = None)
              /\ (st'.2 !! nameOf d a = Some a.1)
              /\ acceptedBy d srcDir a) acc
}.

(** The same over the directories of a run. *)
Record dirsTrace (dirs : list ScanDir) (srcDir : string) (run run' : Run)
    (acc : list (ScanDir * (string * Component))) : Prop := {
  dt_components :
    components run' = components run ++ pairsOf (fun a => a.2.2) acc;
  dt_scanned : scannedPaths run' = scannedPaths run ++ (path <$> dirs);
  dt_paths : filePaths run ⊆ filePaths run';
  dt_nodup_paths : NoDup ((fun a => a.2.1) <$> acc);
  dt_accepted :
    Forall (fun a =>
              (a.1 ∈ dirs) /\ (a.2.1 ∉ filePaths run)
              /\ (a.2.1 ∈ filePaths run')
              /\ acceptedBy a.1 srcDir a.2) acc
}.

End Traces.

(** ** Hosts, directories and components of the examples *)

(** A directory with an index file and a file named after its folder. *)
Definition collidingHost : Host :=
  Posix.host "/"
    (tree [("/src/components", ["foo/index.vue"; "bar/Bar.vue"; "foo/Foo.vue"])]).

Definition collidingDir : ScanDir := plainDir "/src/components".



Definition unwrap {A} (r : result A) (a : A) : A :=
  match r with Ok x => x | Throw _ => a end.

(** A hook that leaves the path and the [async] field of the draft as they
    are. *)
Definition keepsIdentity (d : ScanDir) : Prop :=
  forall hook c c',
    extendComponent d = Some hook -> hook c = Ok (Some c') ->
    filePath c' = filePath c /\ async c' = async c.

(** Two roots, each with a file of the same name. *)
Definition twoRootsHost : Host :=
  Posix.host "/"
    (tree [("/a/components", ["Foo.vue"]); ("/b/components", ["Foo.vue"])]).

Definition twoRoots : list ScanDir :=
  [plainDir "/a/components"; plainDir "/b/components"].

(** The names, the path and the [async] field of a component. *)
Definition digest (c : Component) : string * string * string * option bool :=
  (pascalName c, kebabName c, filePath c, async c).

(** A root with a file whose name starts with the lazy marker. *)
Definition lazyNamedHost : Host :=
  Posix.host "/" (tree [("/src/components", ["LazyFoo.vue"])]).

(** A directory whose hook renames the component and keeps the rest. *)
Definition renamingDir : ScanDir :=
  {| path := "/src/components";
     pattern := Some (OnePattern "**/*.vue");
     ignore := None;
     prefix := Some "app";
     dirGlobal := Some GlobalDev;
     extendComponent :=
       Some (fun c =>
               Ok (Some {| pascalName := "Ui" +:+ pascalName c;
                           kebabName := "ui-" +:+ kebabName c;
                           import := import c;
                           asyncImport := asyncImport c;
                           export := export c;
                           filePath := filePath c;
                           shortPath := shortPath c;
                           async := async c;
                           chunkName := chunkName c;
                           global := global c |})) |}.

(** A root with one file. *)
Definition headerHost : Host :=
  Posix.host "/" (tree [("/src/components", ["Header.vue"])]).

(** A directory and one nested in it. *)
Definition nestedHost : Host :=
  Posix.host "/"
    (tree [("/src/components", ["base/Button.vue"; "Header.vue"]);
           ("/src/components/base", ["Button.vue"])]).

Definition outerDir : ScanDir := plainDir "/src/components".
Definition innerDir : ScanDir := plainDir "/src/components/base".


(** A root with an index file, scanned under a prefix. *)
Definition indexHost : Host :=
  Posix.host "/" (tree [("/src/components", ["index.vue"])]).

Definition prefixedDir (root name : string) : ScanDir :=
  {| path := root;
     pattern := Some (OnePattern "**/*.vue");
     ignore := None;
     prefix := Some name;
     dirGlobal := None;
     extendComponent := None |}.

(** A root whose folder [app] holds [Bar.vue], scanned under the prefix
    [app]. *)
Definition appHost : Host :=
  Posix.host "/" (tree [("/src/components", ["Header.vue"; "app/Bar.vue"])]).

Definition named (pascal kebab : string) : Component :=
  {| pascalName := pascal;
     kebabName := kebab;
     import := "";
     asyncImport := "";
     export := "default";
     filePath := "";
     shortPath := "";
     async := None;
     chunkName := "";
     global := false |}.

(** ** Components sharing their names *)

(** Two components that [matcher] cannot tell apart. *)
Definition sameNames (c c' : Component) : Prop :=
  pascalName c' = pascalName c /\ kebabName c' = kebabName c.

(** A component with its names and its file. *)
Definition namedAt (pascal kebab file : string) : Component :=
  {| pascalName := pascal;
     kebabName := kebab;
     import := "";
     asyncImport := "";
     export := "default";
     filePath := file;
     shortPath := "";
     async := None;
     chunkName := "";
     global := false |}.

(** ** Paths a run does not take up again *)

(** A path that lines 54-58 skip: it starts with a scanned root, or it is
    claimed. *)
Definition handled (run : Run) (filePath : string) : Prop :=
  alreadyScanned run filePath = true \/ filePath ∈ filePaths run.

(** A later state of a run: more paths claimed, more roots scanned. *)
Definition later (run run' : Run) : Prop :=
  filePaths run ⊆ filePaths run'
  /\ exists more, scannedPaths run' = scannedPaths run ++ more.

(** ** The books of a run *)

(** Two states with the same books: the same claimed paths, scanned roots,
    warnings and names, and as many components. *)
Definition sameBooks (st st' : Run * gmap string string) : Prop :=
  filePaths st.1 = filePaths st'.1
  /\ scannedPaths st.1 = scannedPaths st'.1
  /\ console st.1 = console st'.1
  /\ st.2 = st'.2
  /\ length (components st.1) = length (components st'.1).

(** Two configurations of the same root, pattern and ignore list; prefix,
    global flag and hook are free. *)
Definition sameScan (d d' : ScanDir) : Prop :=
  path d = path d' /\ pattern d = pattern d' /\ ignore d = ignore d'.

Section Warnings.
Context `{Host}.

(** A warning of the directory [d] about two different claimed files that
    resolve to the same name. *)
Definition collisionOf (d : ScanDir) (run : Run) (message : string) : Prop :=
  exists p other,
    message = collisionWarning (resolveName (path d) p) p other
    /\ p <> other
    /\ resolveName (path d) other = resolveName (path d) p
    /\ p ∈ filePaths run /\ other ∈ filePaths run.

(** Every name of the map is held by a claimed file that resolves to it. *)
Definition namesClaimed (d : ScanDir) (st : Run * gmap string string) : Prop :=
  forall n q,
    st.2 !! n = Some q -> q ∈ filePaths st.1 /\ resolveName (path d) q = n.

End Warnings.

(** A file system where one root cannot be read. *)
Definition brokenHost : Host :=
  Posix.host "/"
    (fun _ cwd _ =>
       if String.eqb cwd "/src/broken" then Throw "EACCES"
       else Ok ["Header.vue"]).

(** A directory whose hook throws. *)
Definition throwingDir : ScanDir :=
  {| path := "/src/components";
     pattern := Some (OnePattern "**/*.vue");
     ignore := None;
     prefix := None;
     dirGlobal := None;
     extendComponent := Some (fun _ => Throw "hook failed") |}.

(** * Properties *)

(** ** Strings *)

Lemma includes_spec (l : list string) (x : string) :
  JS.includes l x = true <-> x ∈ l.
Proof.
  unfold JS.includes. rewrite existsb_exists. split.
  - intros (y & Hy & E). apply String.eqb_eq in E. subst.
    by apply list_elem_of_In.
  - intros Hx. exists x. split; [by apply list_elem_of_In|apply String.eqb_refl].
Qed.

Lemma startsWith_empty (s : string) : JS.startsWith s "" = true.
Proof. by destruct s. Qed.

Lemma startsWith_app (p s : string) : JS.startsWith (p +:+ s) p = true.
Proof.
  induction p as [|a p IH]; simpl; [apply startsWith_empty|].
  by rewrite Ascii.eqb_refl.
Qed.

Lemma startsWith_spec (s p : string) :
  JS.startsWith s p = true <-> exists t, s = p +:+ t.
Proof.
  split.
  - revert s. induction p as [|b p IH]; intros s Hs; [by exists s|].
    destruct s as [|a s]; [done|]. simpl in Hs.
    apply andb_prop in Hs as [E Hs]. apply Ascii.eqb_eq in E as ->.
    destruct (IH _ Hs) as [t ->]. by exists t.
  - intros [t ->]. apply startsWith_app.
Qed.

Lemma app_assoc_string (a b c : string) : (a +:+ b) +:+ c = a +:+ b +:+ c.
Proof.
  induction a as [|x a IH]; [done|].
  change (String x ((a +:+ b) +:+ c) = String x (a +:+ b +:+ c)).
  by rewrite IH.
Qed.

(** ** lodash: the fuel of [unicodeWords] *)

Lemma span_length {A} (p : A -> bool) (l : list A) :
  length (Lodash.span p l).1 + length (Lodash.span p l).2 = length l.
Proof.
  induction l as [|a l IH]; simpl; [done|].
  destruct (p a); [|done]. destruct (Lodash.span p l) as [u v]. simpl in *. lia.
Qed.

Lemma ordinal_suffix_rest d rest suffix rest' :
  Lodash.ordinal_suffix d rest = Some (suffix, rest') ->
  length rest' <= length rest.
Proof.
  destruct rest as [|x [|y rest]]; try done. unfold Lodash.ordinal_suffix.
  repeat match goal with
         | |- context [if ?b then _ else _] => destruct b
         end; intros [= _ <-]; simpl; lia.
Qed.

(** A match leaves less to read than there was. *)
Lemma nextWord_rest (a : ascii) (t : list ascii) :
  length (Lodash.nextWord a t).2 <= length t.
Proof.
  unfold Lodash.nextWord.
  destruct (Lodash.isLower a).
  { pose proof (span_length Lodash.isLower t).
    destruct (Lodash.span Lodash.isLower t). simpl in *. lia. }
  destruct (Lodash.isUpper a).
  { pose proof (span_length Lodash.isUpper t) as Hu.
    destruct (Lodash.span Lodash.isUpper t) as [up rest]. simpl in Hu.
    destruct up as [|u up].
    - pose proof (span_length Lodash.isLower rest).
      destruct (Lodash.span Lodash.isLower rest). simpl in *. lia.
    - destruct rest as [|b rest]; [simpl; lia|].
      destruct (Lodash.isLower b); simpl in *; lia. }
  destruct (Lodash.isDigit a); [|simpl; lia].
  pose proof (span_length Lodash.isDigit t) as Hd.
  destruct (Lodash.span Lodash.isDigit t) as [ds rest]. simpl in Hd.
  destruct (Lodash.ordinal_suffix _ rest) as [[suffix rest']|] eqn:Ho.
  - apply ordinal_suffix_rest in Ho. simpl. lia.
  - simpl. lia.
Qed.

Lemma unicodeWords_go_enough (fuel fuel' : nat) (s : list ascii) :
  length s <= fuel -> length s <= fuel' ->
  Lodash.unicodeWords_go fuel s = Lodash.unicodeWords_go fuel' s.
Proof.
  revert fuel' s. induction fuel as [|fuel IH]; intros fuel' s Hf Hf'.
  { destruct s; [by destruct fuel'|simpl in Hf; lia]. }
  destruct s as [|a t]; [by destruct fuel'|].
  destruct fuel' as [|fuel']; [simpl in Hf'; lia|]. simpl in *.
  pose proof (nextWord_rest a t) as Hr.
  destruct (Lodash.nextWord a t) as [word rest]. simpl in Hr.
  rewrite (IH fuel' rest) by lia. done.
Qed.

(** With at least as much fuel as the input is long, every word is read. *)
Lemma unicodeWords_go_fuel (fuel : nat) (s : list ascii) :
  length s <= fuel -> Lodash.unicodeWords_go fuel s = Lodash.unicodeWords s.
Proof. intros Hf. by apply unicodeWords_go_enough. Qed.

(** ** Array.prototype.sort *)

Section Sort.
Context {A : Type} (key : A -> nat).

Lemma insert_by_perm (cmp : A -> A -> Z) (x : A) (l : list A) :
  Permutation (x :: l) (JS.insert_by cmp x l).
Proof.
  induction l as [|y l IH]; simpl; [done|].
  destruct (cmp x y <=? 0)%Z; [done|].
  rewrite <- IH. apply perm_swap.
Qed.

Lemma sort_perm (cmp : A -> A -> Z) (l : list A) :
  Permutation l (JS.sort cmp l).
Proof.
  induction l as [|x l IH]; simpl; [done|].
  rewrite <- insert_by_perm. by constructor.
Qed.

Lemma insert_by_sorted (x : A) (l : list A) :
  StronglySorted (deeper_first key) l ->
  StronglySorted (deeper_first key) (JS.insert_by (by_key_desc key) x l).
Proof.
  induction 1 as [|y l Hl IH Hy]; simpl.
  - repeat constructor.
  - unfold by_key_desc at 1. destruct (Z.leb_spec (Z.of_nat (key y) - Z.of_nat (key x)) 0).
    + constructor; [by constructor|].
      constructor; [unfold deeper_first; lia|].
      eapply Forall_impl; [exact Hy|]. unfold deeper_first. intros; simpl in *; lia.
    + constructor; [done|].
      rewrite <- insert_by_perm. constructor; [unfold deeper_first; lia|done].
Qed.

Lemma sort_sorted (l : list A) :
  StronglySorted (deeper_first key) (JS.sort (by_key_desc key) l).
Proof.
  induction l as [|x l IH]; simpl; [constructor|by apply insert_by_sorted].
Qed.


End Sort.

Lemma sortDirs_sorted (dirs : list ScanDir) :
  StronglySorted (deeper_first (fun d => pathLength (path d)))
    (JS.sort sortDirsByPathLength dirs).
Proof. apply (sort_sorted (fun d => pathLength (path d))). Qed.

(** ** Completions *)

Lemma bind_Ok {A B} (m : result A) (f : A -> result B) (b : B) :
  m ≫= f = Ok b <-> exists a, m = Ok a /\ f a = Ok b.
Proof.
  destruct m as [a|e]; simpl; split.
  - intros Hb. by exists a.
  - by intros (a' & [= <-] & Hb).
  - done.
  - by intros (a' & [=] & _).
Qed.

Lemma bind_of_Ok {A B} (a : A) (f : A -> result B) : Ok a ≫= f = f a.
Proof. done. Qed.

(** ** One step of the inner loop *)

Section Steps.
Context `{Host}.

Lemma scanFile_step d srcDir _file st st' :
  scanFile d srcDir st _file = Ok st' <-> fileStep d srcDir _file st st'.
Proof.
  split.
  - destruct st as [run names]. unfold scanFile.
    destruct (alreadyScanned run _) eqn:Hs.
    { intros [= <-]. by constructor. }
    case_bool_decide as Hin.
    { intros [= <-]. by constructor. }
    destruct (names !! _) as [other|] eqn:Hn.
    { intros [= <-]. by constructor. }
    intros (_c & Hc & [= <-])%bind_Ok. by constructor.
  - destruct 1 as [run names Hs|run names Hs Hin
                  |run names other p n Hs Hin Hn|run names _c p n Hs Hin Hn Hc];
      try subst p n; unfold scanFile; rewrite Hs; try done.
    + by rewrite bool_decide_true.
    + rewrite bool_decide_false by done. by rewrite Hn.
    + rewrite bool_decide_false by done. by rewrite Hn, Hc.
Qed.

Lemma scanFiles_trace d srcDir files st st' :
  scanFiles d srcDir files st = Ok st' ->
  exists acc, filesTrace d srcDir st st' acc.
Proof.
  revert st. induction files as [|f files IH]; intros st Hs; simpl in Hs.
  { injection Hs as <-. exists [].
    split; simpl; rewrite ?app_nil_r; try done; constructor. }
  apply bind_Ok in Hs as (st1 & Hstep & Hrest).
  apply scanFile_step in Hstep.
  destruct (IH _ Hrest) as (acc & [Hc Hsc Hp Hn Hdp Hdn Hacc]).
  destruct Hstep as [run names Hs|run names Hs Hin
                    |run names other p n Hs Hin Hn'|run names _c p n Hs Hin Hn' Hx];
    simpl in *.
  - exists acc. by split.
  - exists acc. by split.
  - exists acc. split; simpl; try done.
    + set_solver.
    + eapply Forall_impl; [exact Hacc|]. simpl. intros a (? & ? & ? & ? & ?).
      repeat split; try done. set_solver.
  - assert (names ⊆ <[n:=p]> names) as Hsub by by apply insert_subseteq.
    assert (Forall (fun a : string * Component =>
                      (a.1 ≠ p) /\ (nameOf d a ≠ n)) acc) as Hne.
    { eapply Forall_impl; [exact Hacc|]. simpl. intros a (Ha & _ & Hb & _).
      split.
      - intros E. rewrite E in Ha. set_solver.
      - intros E. rewrite E, lookup_insert_eq in Hb. done. }
    exists ((p, _c) :: acc). split; simpl.
    + rewrite Hc. simpl. by rewrite <- app_assoc.
    + done.
    + set_solver.
    + by etrans.
    + constructor; [|done]. intros (a & -> & Ha)%list_elem_of_fmap.
      rewrite Forall_forall in Hne. by destruct (Hne _ Ha).
    + constructor; [|done]. intros (a & E & Ha)%list_elem_of_fmap.
      rewrite Forall_forall in Hne. by destruct (Hne _ Ha).
    + constructor.
      * repeat split; simpl; try done.
        -- set_solver.
        -- eapply lookup_weaken; [|exact Hn]. apply lookup_insert_eq.
      * eapply Forall_impl; [exact Hacc|]. simpl.
        intros a (Ha & ? & Hb & ? & ?). repeat split; try done.
        -- set_solver.
        -- eapply lookup_weaken_None; [exact Hb|done].
Qed.

Lemma pairsOf_app {A} (f : A -> Component) (l k : list A) :
  pairsOf f (l ++ k) = pairsOf f l ++ pairsOf f k.
Proof. unfold pairsOf. apply flat_map_app. Qed.

Lemma pairsOf_fmap {A B} (f : B -> Component) (g : A -> B) (l : list A) :
  pairsOf f (g <$> l) = pairsOf (fun a => f (g a)) l.
Proof.
  unfold pairsOf. induction l as [|a l IH]; simpl; [done|].
  by rewrite <- IH.
Qed.

Lemma scanDir_inv d srcDir run run' :
  scanDir d srcDir run = Ok run' <->
  exists files st,
    globby (pattern d) (path d) (default [] (ignore d)) = Ok files
    /\ scanFiles d srcDir files (run, ∅) = Ok st
    /\ run' = scanned (path d) st.1.
Proof.
  unfold scanDir. rewrite bind_Ok. split.
  - intros (files & Hg & (st & Hs & [= <-])%bind_Ok). by exists files, st.
  - intros (files & st & Hg & Hs & ->). exists files. split; [done|].
    apply bind_Ok. by exists st.
Qed.

Lemma scanDirs_trace dirs srcDir run run' :
  scanDirs dirs srcDir run = Ok run' ->
  exists acc, dirsTrace dirs srcDir run run' acc.
Proof.
  revert run. induction dirs as [|d dirs IH]; intros run Hs; simpl in Hs.
  { injection Hs as <-. exists [].
    split; simpl; rewrite ?app_nil_r; try done; constructor. }
  apply bind_Ok in Hs as (run1 & Hd & Hrest).
  apply scanDir_inv in Hd as (files & st & _ & Hf & ->).
  destruct (scanFiles_trace _ _ _ _ _ Hf) as (acc1 & [Hc1 Hsc1 Hp1 _ Hdp1 _ Hacc1]).
  destruct (IH _ Hrest) as (acc2 & [Hc2 Hsc2 Hp2 Hdp2 Hacc2]).
  simpl in *.
  exists ((pair d <$> acc1) ++ acc2). split; simpl.
  - rewrite Hc2, Hc1, pairsOf_app, pairsOf_fmap. simpl. by rewrite <- app_assoc.
  - rewrite Hsc2, Hsc1. by rewrite <- app_assoc.
  - set_solver.
  - rewrite fmap_app, <- list_fmap_compose. apply NoDup_app. split; [|split].
    + done.
    + intros p (a1 & -> & Ha1)%list_elem_of_fmap (a2 & E & Ha2)%list_elem_of_fmap.
      destruct (proj1 (Forall_forall _ _) Hacc1 _ Ha1) as (_ & Hin & _).
      destruct (proj1 (Forall_forall _ _) Hacc2 _ Ha2) as (_ & Hout & _).
      simpl in E. rewrite E in Hin. done.
    + done.
  - apply Forall_app. split.
    + apply Forall_fmap. eapply Forall_impl; [exact Hacc1|]. simpl.
      intros a (? & ? & _ & _ & ?). repeat split; try done.
      * apply elem_of_cons. by left.
      * set_solver.
    + eapply Forall_impl; [exact Hacc2|]. simpl.
      intros a (? & ? & ? & ?). repeat split; try done.
      * apply elem_of_cons. by right.
      * set_solver.
Qed.

Lemma scanFiles_cons d srcDir f l st :
  scanFiles d srcDir (f :: l) st
  = scanFile d srcDir st f ≫= scanFiles d srcDir l.
Proof. done. Qed.

Lemma scanFiles_app d srcDir l k st :
  scanFiles d srcDir (l ++ k) st
  = scanFiles d srcDir l st ≫= scanFiles d srcDir k.
Proof.
  revert st. induction l as [|f l IH]; intros st; simpl; [done|].
  destruct (scanFile d srcDir st f) as [st1|e]; simpl; [apply IH|done].
Qed.


End Steps.

(** ** Naming collisions inside one directory *)



(** ** What a completed run returns *)

Section Results.
Context `{Host}.

(** The result of a run is made of the pairs of the files it accepted, in
    the order of acceptance, and no path is accepted twice. *)
Lemma completion_trace dirs srcDir comps warnings :
  completion (scanComponents dirs srcDir) = Ok (comps, warnings) ->
  exists acc : list (ScanDir * (string * Component)),
    comps = pairsOf (fun a => a.2.2) acc
    /\ NoDup ((fun a => a.2.1) <$> acc)
    /\ Forall (fun a => (a.1 ∈ dirs) /\ acceptedBy a.1 srcDir a.2) acc.
Proof.
  simpl. intros (run & Hrun & [= <- <-])%bind_Ok.
  destruct (scanDirs_trace _ _ _ _ Hrun) as (acc & [Hc _ _ Hd Hacc]).
  exists acc. repeat split; try done.
  eapply Forall_impl; [exact Hacc|]. simpl. intros a (Ha & _ & _ & ?).
  split; [|done]. by rewrite (sort_perm sortDirsByPathLength dirs).
Qed.

Lemma string_app_cons (a : ascii) (s t : string) :
  String a s +:+ t = String a (s +:+ t).
Proof. done. Qed.

Lemma doubling_inj (c : ascii) (s t : string) :
  JS.replace_all c (String c (String c "")) s
  = JS.replace_all c (String c (String c "")) t ->
  s = t.
Proof.
  revert t. induction s as [|a s IH]; intros [|b t]; simpl.
  - done.
  - destruct (Ascii.eqb b c); by rewrite ?string_app_cons.
  - destruct (Ascii.eqb a c); by rewrite ?string_app_cons.
  - destruct (Ascii.eqb_spec a c) as [->|Ha], (Ascii.eqb_spec b c) as [->|Hb];
      rewrite ?string_app_cons.
    + intros [= E]. by rewrite (IH _ E).
    + intros [= E _]. by destruct Hb.
    + intros [= E _]. by destruct Ha.
    + intros [= -> E]. by rewrite (IH _ E).
Qed.

Lemma embeddedPath_inj (p q : string) :
  embeddedPath p = embeddedPath q -> p = q.
Proof.
  unfold embeddedPath. destruct isWindows; [apply doubling_inj|done].
Qed.

Lemma accepted_identity d srcDir a :
  keepsIdentity d -> acceptedBy d srcDir a ->
  filePath a.2 = embeddedPath a.1 /\ async a.2 = None.
Proof.
  unfold acceptedBy, extend. intros Hk.
  destruct (extendComponent d) as [hook|] eqn:E.
  - intros ([c'|] & Hh & [= <-])%bind_Ok; [|done].
    by destruct (Hk _ _ _ E Hh) as [-> ->].
  - by intros [= <-].
Qed.


End Results.

(** ** Names across one run *)

(** C1, as stated, fails: two directories that each hold [Foo.vue] give two
    eager components named [Foo], for two different files, and no warning
    is written. *)
Lemma pascalName_shared_across_directories :
  let comps := (unwrap (completion (scanComponents (H := twoRootsHost) twoRoots "/")) ([], [])).1 in
  completion (scanComponents (H := twoRootsHost) twoRoots "/") = Ok (comps, [])
  /\ digest <$> comps
     = [("Foo", "foo", "/a/components/Foo.vue", None);
        ("LazyFoo", "lazy-foo", "/a/components/Foo.vue", Some true);
        ("Foo", "foo", "/b/components/Foo.vue", None);
        ("LazyFoo", "lazy-foo", "/b/components/Foo.vue", Some true)]
  /\ ~ NoDup (pascalName <$> filter (fun c => async c = None) comps).
Proof.
  split; [vm_compute; reflexivity|]. split; [vm_compute; reflexivity|].
  vm_compute. intros Hn. inversion Hn as [|? ? Hnotin _]. apply Hnotin.
  constructor.
Qed.

(** C1, amended. Within the scan of one directory the names the accepted
    files resolve to (the key of [resolvedNames], before casing, prefix and
    hook) are pairwise distinct, and the directory adds the pairs of these
    files and nothing else; a file that is not skipped and resolves to a
    name already claimed in this directory adds no component and writes a
    warning.  The map of names starts empty for every directory. *)
Theorem names_unique_within_directory `{Host} (d : ScanDir) (srcDir : string)
    (run run' : Run) :
  scanDir d srcDir run = Ok run' ->
  (exists acc : list (string * Component),
      components run' = components run ++ pairsOf snd acc
      /\ NoDup (nameOf d <$> acc)
      /\ Forall (acceptedBy d srcDir) acc)
  /\ forall st names _file other,
       let p := join (path d) _file in
       alreadyScanned st p = false -> p ∉ filePaths st ->
       names !! resolveName (path d) p = Some other ->
       exists st',
         scanFile d srcDir (st, names) _file = Ok (st', names)
         /\ components st' = components st
         /\ console st'
            = console st ++ [collisionWarning (resolveName (path d) p) p other].
Proof.
  intros (files & st & _ & Hf & ->)%scanDir_inv. split.
  - destruct (scanFiles_trace _ _ _ _ _ Hf) as (acc & [Hc _ _ _ _ Hn Hacc]).
    exists acc. repeat split; try done.
    eapply Forall_impl; [exact Hacc|]. by intros a (_ & _ & _ & _ & ?).
  - intros st0 names _file other p Hs Hin Hn. eexists. split.
    + apply scanFile_step. by apply step_collision.
    + done.
Qed.

(** The same directory: two names for three files. *)
Lemma names_unique_within_directory_witness :
  let run' :=
    unwrap (scanDir (H := collidingHost) collidingDir "/src" newRun) newRun in
  scanDir (H := collidingHost) collidingDir "/src" newRun = Ok run'
  /\ exists acc : list (string * Component),
       components run' = components newRun ++ pairsOf snd acc
       /\ NoDup (nameOf (H := collidingHost) collidingDir <$> acc)
       /\ Forall (acceptedBy (H := collidingHost) collidingDir "/src") acc.
Proof.
  intros run'.
  assert (scanDir (H := collidingHost) collidingDir "/src" newRun = Ok run')
    as Hrun by (vm_compute; reflexivity).
  split; [exact Hrun|].
  exact (proj1 (names_unique_within_directory collidingDir "/src" newRun run' Hrun)).
Defined.

(** ** The eager and the lazy component of a file *)

Lemma kebabCase_lazy : Lodash.kebabCase LAZY_PREFIX = "lazy".
Proof. vm_compute; reflexivity. Qed.

Lemma pascalCase_lazy : pascalCase LAZY_PREFIX = "Lazy".
Proof. vm_compute; reflexivity. Qed.

Lemma lazy_pascalName (_c : Component) :
  pascalName (lazyComponent _c)
  = if JS.startsWith (pascalName _c) "lazy" then pascalName _c
    else "Lazy" +:+ pascalName _c.
Proof.
  unfold lazyComponent, prefixComponent. simpl.
  destruct (JS.startsWith _ _); [done|]. by rewrite pascalCase_lazy.
Qed.

Lemma filter_key_absent {A B} `{EqDecision B} (g : A -> B) (l : list A) (b : B) :
  b ∉ g <$> l -> filter (fun x => g x = b) l = [].
Proof.
  induction l as [|x l IH]; intros Hb; [done|].
  rewrite fmap_cons in Hb. apply not_elem_of_cons in Hb as [Hx Hb].
  rewrite filter_cons_False by done. by apply IH.
Qed.

(** In a list without two elements of the same key, the elements with the
    key of a member are that member alone. *)
Lemma filter_key_NoDup {A B} `{EqDecision B} (g : A -> B) (l : list A) (a : A) :
  NoDup (g <$> l) -> a ∈ l -> filter (fun x => g x = g a) l = [a].
Proof.
  induction l as [|x l IH]; intros Hn Ha; [by apply elem_of_nil in Ha|].
  rewrite fmap_cons in Hn. apply NoDup_cons in Hn as [Hx Hn].
  apply elem_of_cons in Ha as [->|Ha].
  - rewrite filter_cons_True by done. f_equal. by apply filter_key_absent.
  - rewrite filter_cons_False; [by apply IH|].
    intros E. apply Hx. rewrite E. by apply list_elem_of_fmap_2.
Qed.

Lemma filter_pairsOf {A} (f : A -> Component) (fp : string) (l : list A) :
  filter (fun c => filePath c = fp) (pairsOf f l)
  = pairsOf f (filter (fun a => filePath (f a) = fp) l).
Proof.
  induction l as [|a l IH]; [done|].
  change (pairsOf f (a :: l))
    with (eagerComponent (f a) :: lazyComponent (f a) :: pairsOf f l).
  destruct (decide (filePath (f a) = fp)) as [E|E].
  - rewrite (filter_cons_True _ a) by done.
    rewrite !filter_cons_True by done. by rewrite IH.
  - rewrite (filter_cons_False _ a) by done.
    rewrite !filter_cons_False by done. by rewrite IH.
Qed.

(** C3, as stated, fails: for [LazyFoo.vue] the kebab name of the lazy
    component is the one of the eager component, without a second marker. *)
Lemma lazy_marker_not_prepended :
  let comps :=
    (unwrap (completion (scanComponents (H := lazyNamedHost)
                           [plainDir "/src/components"] "/src")) ([], [])).1 in
  completion (scanComponents (H := lazyNamedHost)
                [plainDir "/src/components"] "/src") = Ok (comps, [])
  /\ digest <$> comps
     = [("LazyFoo", "lazy-foo", "/src/components/LazyFoo.vue", None);
        ("LazyLazyFoo", "lazy-foo", "/src/components/LazyFoo.vue", Some true)]
  /\ exists e l, comps = [e; l] /\ kebabName l <> "lazy-" +:+ kebabName e.
Proof.
  split; [vm_compute; reflexivity|]. split; [vm_compute; reflexivity|].
  eexists _, _. split; [vm_compute; reflexivity|]. vm_compute. discriminate.
Qed.

#[local] Instance embeddedPath_Inj `{Host} : Inj (=) (=) embeddedPath.
Proof. intros p q. apply embeddedPath_inj. Qed.

(** C3, amended. When the hooks leave the path and the [async] field of the
    draft as they are, the result of a run is, for the accepted files in
    order, an eager component directly followed by a lazy one; these two are
    the only components of the result with their [filePath], which is the
    path of the file (with doubled backslashes on Windows); [async] is absent
    on the eager one and [true] on the lazy one.  The lazy kebab name is the
    eager one behind ["lazy-"], unless the eager one already starts with
    ["lazy"] and is kept; the lazy pascal name is the eager one behind
    ["Lazy"] when the eager one starts with neither ["lazy"] nor ["Lazy"]. *)
Theorem eager_lazy_pairs `{Host} (dirs : list ScanDir) (srcDir : string)
    (comps : list Component) (warnings : list string) :
  Forall keepsIdentity dirs ->
  completion (scanComponents dirs srcDir) = Ok (comps, warnings) ->
  exists acc : list (ScanDir * (string * Component)),
    comps = flat_map (fun a => [eagerComponent a.2.2; lazyComponent a.2.2]) acc
    /\ NoDup ((fun a => a.2.1) <$> acc)
    /\ Forall
         (fun a =>
            let e := eagerComponent a.2.2 in
            let l := lazyComponent a.2.2 in
            (a.1 ∈ dirs) /\ acceptedBy a.1 srcDir a.2
            /\ filter (fun c => filePath c = filePath e) comps = [e; l]
            /\ filePath e = embeddedPath a.2.1 /\ filePath l = filePath e
            /\ async e = None /\ async l = Some true
            /\ kebabName l
               = (if JS.startsWith (kebabName e) "lazy" then kebabName e
                  else "lazy-" +:+ kebabName e)
            /\ (JS.startsWith (pascalName e) "lazy" = false ->
                JS.startsWith (pascalName e) "Lazy" = false ->
                pascalName l = "Lazy" +:+ pascalName e))
         acc.
Proof.
  intros Hk Hrun.
  destruct (completion_trace _ _ _ _ Hrun) as (acc & -> & Hn & Hacc).
  assert (Forall (fun a : ScanDir * (string * Component) =>
                    filePath a.2.2 = embeddedPath a.2.1 /\ async a.2.2 = None)
            acc) as Hid.
  { eapply Forall_impl; [exact Hacc|]. simpl. intros a [Hd Ha].
    eapply accepted_identity; [|exact Ha].
    by apply (proj1 (Forall_forall _ _) Hk). }
  assert (NoDup ((fun a : ScanDir * (string * Component) => filePath a.2.2)
                   <$> acc)) as Hnf.
  { replace ((fun a : ScanDir * (string * Component) => filePath a.2.2) <$> acc)
      with (embeddedPath <$> ((fun a : ScanDir * (string * Component) => a.2.1)
                                <$> acc)).
    - by apply (NoDup_fmap_2 _).
    - rewrite <- list_fmap_compose. apply Forall_fmap_ext_1.
      eapply Forall_impl; [exact Hid|]. simpl. by intros a [-> _]. }
  exists acc. split; [done|]. split; [done|].
  apply Forall_forall. intros a Ha.
  destruct (proj1 (Forall_forall _ _) Hacc _ Ha) as [Hd Hx].
  destruct (proj1 (Forall_forall _ _) Hid _ Ha) as [Hp Has].
  repeat split; try done.
  - change (filePath (eagerComponent a.2.2)) with (filePath a.2.2).
    rewrite (filter_pairsOf (fun a => a.2.2)).
    by rewrite (filter_key_NoDup (fun a => filePath a.2.2) acc a Hnf Ha).
  - intros Hl _. change (pascalName (eagerComponent a.2.2))
      with (pascalName a.2.2) in *.
    rewrite lazy_pascalName. by rewrite Hl.
Qed.

(** A run under a prefix and a renaming hook. *)
Lemma eager_lazy_pairs_witness :
  let outcome :=
    completion (scanComponents (H := collidingHost) [renamingDir] "/src") in
  Forall (keepsIdentity) [renamingDir]
  /\ outcome = Ok (unwrap outcome ([], []))
  /\ digest <$> (unwrap outcome ([], [])).1
     = [("UiAppFoo", "ui-app-foo", "/src/components/foo/index.vue", None);
        ("LazyUiAppFoo", "lazy-ui-app-foo", "/src/components/foo/index.vue",
         Some true);
        ("UiAppBar", "ui-app-bar", "/src/components/bar/Bar.vue", None);
        ("LazyUiAppBar", "lazy-ui-app-bar", "/src/components/bar/Bar.vue",
         Some true)]
  /\ exists acc : list (ScanDir * (string * Component)),
       (unwrap outcome ([], [])).1
       = flat_map (fun a => [eagerComponent a.2.2; lazyComponent a.2.2]) acc
       /\ NoDup ((fun a => a.2.1) <$> acc).
Proof.
  intros outcome.
  assert (Forall keepsIdentity [renamingDir]) as Hk.
  { constructor; [|constructor]. intros hook c c' [= <-] [= <-]. done. }
  assert (outcome = Ok ((unwrap outcome ([], [])).1, (unwrap outcome ([], [])).2))
    as Hrun by (vm_compute; reflexivity).
  split; [exact Hk|]. split; [vm_compute; reflexivity|].
  split; [vm_compute; reflexivity|].
  destruct (eager_lazy_pairs [renamingDir] "/src" _ _ Hk Hrun)
    as (acc & Hc & Hn & _).
  by exists acc.
Defined.

(** ** The import snippets *)







(** ** Deeper directories first *)


Lemma split_go_separator is_sep cur (a : string) (c : ascii) (b : string) :
  is_sep c = true ->
  JS.split_go is_sep cur (a +:+ String c b)
  = JS.split_go is_sep cur a ++ JS.split_go is_sep "" b.
Proof.
  intros Hc. revert cur. induction a as [|x a IH]; intros cur.
  - change ("" +:+ String c b) with (String c b). simpl. by rewrite Hc.
  - change (String x a +:+ String c b) with (String x (a +:+ String c b)).
    simpl. destruct (is_sep x); by rewrite IH.
Qed.


Section Order.
Context `{Host}.


Lemma scanFile_claimed d srcDir st _file :
  join (path d) _file ∈ filePaths st.1 -> scanFile d srcDir st _file = Ok st.
Proof.
  destruct st as [run names]. simpl. intros Hin. unfold scanFile.
  destruct (alreadyScanned run _); [done|]. by rewrite bool_decide_true.
Qed.


End Order.



(** ** The naming rule *)



(** C9, as stated, fails: under the prefix [app] the index file of the root
    gives the names [App] and [app-]. *)
Lemma index_in_root_takes_the_prefix :
  (fun r => (digest <$> r.1, r.2))
    (unwrap (completion (scanComponents (H := indexHost)
                           [prefixedDir "/src/components" "app"] "/src"))
       ([], ["no result"]))
  = ([("App", "app-", "/src/components/index.vue", None);
      ("LazyApp", "lazy-app-", "/src/components/index.vue", Some true)], [])
  /\ exists e l,
       completion (scanComponents (H := indexHost)
                     [prefixedDir "/src/components" "app"] "/src")
       = Ok ([e; l], [])
       /\ pascalName e <> "" /\ kebabName e <> "".
Proof.
  split; [vm_compute; reflexivity|]. eexists _, _.
  split; [vm_compute; reflexivity|]. split; vm_compute; discriminate.
Qed.

(** C9, amended. In a directory without prefix (or with an empty one) and
    without hook, a file whose name without extension is [index] and whose
    parent directory is the root resolves to the empty name; when it is
    accepted, its eager component has empty pascal and kebab names and its
    lazy component is named [Lazy] and [lazy-]. *)
Theorem index_in_root_has_empty_name `{Host} (d : ScanDir) (srcDir : string)
    (run : Run) (names : gmap string string) (_file : string) :
  let filePath := join (path d) _file in
  basename filePath (Some (extname filePath)) = "index" ->
  relative (path d) (dirname filePath) = "" ->
  default "" (prefix d) = "" ->
  extendComponent d = None ->
  resolveName (path d) filePath = ""
  /\ (alreadyScanned run filePath = false -> filePath ∉ filePaths run ->
      names !! "" = None ->
      exists e l,
        scanFile d srcDir (run, names) _file
        = Ok (push [e; l] (claim filePath run), <["" := filePath]> names)
        /\ pascalName e = "" /\ kebabName e = ""
        /\ pascalName l = "Lazy" /\ kebabName l = "lazy-"
        /\ async e = None /\ async l = Some true).
Proof.
  intros filePath Hb Hr Hp Hx.
  assert (resolveName (path d) filePath = "") as Hname.
  { unfold resolveName. by rewrite Hb, Hr. }
  split; [done|]. intros Hs Hin Hn.
  exists (eagerComponent (draftComponent d srcDir filePath "")),
         (lazyComponent (draftComponent d srcDir filePath "")).
  split.
  - pose proof (step_accepted d srcDir _file run names
                  (draftComponent d srcDir filePath "") Hs Hin) as Hstep.
    fold filePath in Hstep. rewrite Hname in Hstep.
    apply scanFile_step, Hstep; [done|]. unfold extend. by rewrite Hx.
  - unfold lazyComponent, eagerComponent, draftComponent, prefixComponent.
    simpl. rewrite Hp. done.
Qed.

(** [index.vue] in the root of a directory without prefix. *)
Lemma index_in_root_has_empty_name_witness :
  let H : Host := indexHost in
  let filePath := join "/src/components" "index.vue" in
  (basename filePath (Some (extname filePath)) = "index"
   /\ relative "/src/components" (dirname filePath) = "")
  /\ (fun r => (digest <$> r.1, r.2))
       (unwrap (completion (scanComponents [plainDir "/src/components"] "/src"))
          ([], ["no result"]))
     = ([("", "", "/src/components/index.vue", None);
         ("Lazy", "lazy-", "/src/components/index.vue", Some true)], [])
  /\ resolveName "/src/components" filePath = "".
Proof.
  intros H filePath.
  assert (basename filePath (Some (extname filePath)) = "index") as H1
    by (vm_compute; reflexivity).
  assert (relative "/src/components" (dirname filePath) = "") as H2
    by (vm_compute; reflexivity).
  split; [done|]. split; [vm_compute; reflexivity|].
  exact (proj1 (index_in_root_has_empty_name (H := indexHost)
                  (plainDir "/src/components") "/src" newRun ∅ "index.vue"
                  H1 H2 eq_refl eq_refl)).
Defined.

(** ** The directory prefix *)

(** C6 on the code. [prefixComponent] keeps a name that starts with the
    prefix as it was written in the configuration and otherwise puts the
    cased prefix in front.  Under the prefix [app], [Header] becomes
    [AppHeader]; [AppBar] does not start with [app], so it becomes
    [AppAppBar], while its kebab name [app-bar] is kept. *)
Theorem prefix_check_is_case_sensitive :
  (forall (prefix : string) (c : Component),
      pascalName (prefixComponent (Some prefix) c)
      = (if JS.startsWith (pascalName c) prefix then pascalName c
         else pascalCase prefix +:+ pascalName c)
      /\ kebabName (prefixComponent (Some prefix) c)
         = (if JS.startsWith (kebabName c) prefix then kebabName c
            else Lodash.kebabCase prefix +:+ "-" +:+ kebabName c))
  /\ digest (prefixComponent (Some "app") (named "Header" "header"))
     = ("AppHeader", "app-header", "", None)
  /\ digest (prefixComponent (Some "app") (named "AppBar" "app-bar"))
     = ("AppAppBar", "app-bar", "", None)
  /\ (fun r => (digest <$> r.1, r.2))
       (unwrap (completion (scanComponents (H := appHost)
                              [prefixedDir "/src/components" "app"] "/src"))
          ([], ["no result"]))
     = ([("AppHeader", "app-header", "/src/components/Header.vue", None);
         ("LazyAppHeader", "lazy-app-header", "/src/components/Header.vue",
          Some true);
         ("AppAppBar", "app-bar", "/src/components/app/Bar.vue", None);
         ("LazyAppAppBar", "lazy-app-bar", "/src/components/app/Bar.vue",
          Some true)], []).
Proof.
  split; [done|]. repeat split; vm_compute; reflexivity.
Qed.

(** ** matcher *)

Lemma matches_spec (tag : string) (c : Component) :
  matches tag c = true <-> pascalName c = tag \/ kebabName c = tag.
Proof.
  unfold matches. rewrite includes_spec, elem_of_cons, list_elem_of_singleton.
  split; intros [E|E]; auto.
Qed.

Lemma find_first {A} (p : A -> bool) (l : list A) (x : A) :
  find p l = Some x <->
  exists before after,
    l = before ++ x :: after /\ p x = true
    /\ Forall (fun y => p y = false) before.
Proof.
  split.
  - induction l as [|y l IH]; simpl; [done|].
    destruct (p y) eqn:Hy.
    + intros [= ->]. exists [], l. split; [done|]. split; [done|constructor].
    + intros (before & after & -> & Hx & Hb)%IH.
      exists (y :: before), after. split; [done|]. split; [done|by constructor].
  - intros (before & after & -> & Hx & Hb).
    induction Hb as [|y before Hy _ IH]; simpl; [by rewrite Hx|by rewrite Hy].
Qed.

Lemma matcher_fold (tags : list string) (components : list Component)
    (acc : list Component) :
  fold_left
    (fun matches_ tag =>
       match find (matches tag) components with
       | Some match_ => matches_ ++ [match_]
       | None => matches_
       end)
    tags acc
  = acc ++ omap (fun tag => find (matches tag) components) tags.
Proof.
  revert acc. induction tags as [|tag tags IH]; intros acc; simpl.
  - by rewrite app_nil_r.
  - rewrite IH. destruct (find _ _); [by rewrite <- app_assoc|done].
Qed.

Lemma omap_length_le {A B} (f : A -> option B) (l : list A) :
  length (omap f l) <= length l.
Proof.
  induction l as [|x l IH]; [done|].
  change (omap f (x :: l))
    with (match f x with Some y => y :: omap f l | None => omap f l end).
  destruct (f x); simpl; lia.
Qed.

(** C8. [matcher] returns, tag after tag, the first component whose pascal
    or kebab name is the tag; a tag that no component bears adds nothing, so
    the result is no longer than the tags and follows their order.  With a
    component for [Header] and none for [missing-tag], the result for these
    two tags is that component alone. *)
Theorem matcher_first_match_per_tag (tags : list string)
    (components : list Component) :
  matcher tags components
  = omap (fun tag => find (matches tag) components) tags
  /\ (forall tag c,
        find (matches tag) components = Some c <->
        exists before after,
          components = before ++ c :: after
          /\ (pascalName c = tag \/ kebabName c = tag)
          /\ Forall (fun c' => pascalName c' <> tag /\ kebabName c' <> tag)
               before)
  /\ (forall tag,
        find (matches tag) components = None <->
        Forall (fun c' => pascalName c' <> tag /\ kebabName c' <> tag)
          components)
  /\ length (matcher tags components) <= length tags
  /\ (forall c,
        find (matches "Header") components = Some c ->
        find (matches "missing-tag") components = None ->
        matcher ["Header"; "missing-tag"] components = [c]).
Proof.
  assert (forall tag (l : list Component),
             Forall (fun y => matches tag y = false) l <->
             Forall (fun c' => pascalName c' <> tag /\ kebabName c' <> tag) l)
    as Hnone.
  { intros tag l. apply Forall_proper; [|done]. intros c.
    rewrite <- not_true_iff_false, matches_spec. tauto. }
  split; [apply (matcher_fold tags components [])|]. split; [|split; [|split]].
  - intros tag c. rewrite find_first. setoid_rewrite matches_spec.
    by setoid_rewrite Hnone.
  - intros tag. rewrite <- Hnone. split.
    + intros Hf. apply Forall_forall. intros c Hc%list_elem_of_In.
      by apply (find_none _ _ Hf).
    + intros Hall. destruct (find _ _) as [c|] eqn:Hf; [|done].
      apply find_some in Hf as [Hc%list_elem_of_In Hm].
      rewrite Forall_forall in Hall. by rewrite (Hall _ Hc) in Hm.
  - unfold matcher. rewrite matcher_fold. simpl. apply omap_length_le.
  - intros c Hh Hm. unfold matcher. simpl. by rewrite Hh, Hm.
Qed.

(** One tag with a match and one without. *)
Lemma matcher_first_match_per_tag_witness :
  let components :=
    [named "Footer" "footer"; named "Header" "header";
     named "LazyHeader" "lazy-header"] in
  (find (matches "Header") components = Some (named "Header" "header")
   /\ find (matches "missing-tag") components = None)
  /\ matcher ["Header"; "missing-tag"] components = [named "Header" "header"].
Proof.
  intros components.
  assert (find (matches "Header") components = Some (named "Header" "header"))
    as H1 by (vm_compute; reflexivity).
  assert (find (matches "missing-tag") components = None) as H2
    by (vm_compute; reflexivity).
  split; [done|].
  exact (proj2 (proj2 (proj2 (proj2
           (matcher_first_match_per_tag ["Header"; "missing-tag"] components))))
           _ H1 H2).
Defined.

(** ** The array of directories *)

(** C10. [scanComponents] leaves the array it was given sorted by
    decreasing number of path pieces: the same directories, unchanged, in an
    order that can differ from the one the caller wrote. *)
Theorem dirs_sorted_in_place :
  (forall (H : Host) (dirs : list ScanDir) (srcDir : string),
      dirsAfter (scanComponents dirs srcDir)
      = JS.sort sortDirsByPathLength dirs
      /\ Permutation dirs (dirsAfter (scanComponents dirs srcDir))
      /\ StronglySorted (deeper_first (fun d => pathLength (path d)))
           (dirsAfter (scanComponents dirs srcDir)))
  /\ dirsAfter (scanComponents (H := nestedHost) [outerDir; innerDir] "/src")
     = [innerDir; outerDir]
  /\ dirsAfter (scanComponents (H := nestedHost) [outerDir; innerDir] "/src")
     <> [outerDir; innerDir].
Proof.
  split; [|split].
  - intros H dirs srcDir. simpl. split; [done|]. split.
    + apply sort_perm.
    + apply sortDirs_sorted.
  - done.
  - intros E. apply (f_equal (fmap path)) in E. vm_compute in E. discriminate.
Qed.

(** * Further properties *)

(** ** matcher, continued *)

Lemma find_app_list {A} (p : A -> bool) (l k : list A) :
  find p (l ++ k) = match find p l with Some x => Some x | None => find p k end.
Proof.
  induction l as [|x l IH]; simpl; [done|]. by destruct (p x).
Qed.

Lemma matcher_omap (tags : list string) (components : list Component) :
  matcher tags components
  = omap (fun tag => find (matches tag) components) tags.
Proof. apply (matcher_fold tags components []). Qed.

(** X1. Whatever [matcher] returns is a member of the components it was
    given and bears one of the tags as its pascal or kebab name. *)
Theorem matcher_returns_tagged_members (tags : list string)
    (components : list Component) :
  Forall
    (fun c =>
       c ∈ components
       /\ exists tag, tag ∈ tags /\ (pascalName c = tag \/ kebabName c = tag))
    (matcher tags components).
Proof.
  rewrite matcher_omap. apply Forall_forall.
  intros c (tag & Htag & Hf)%list_elem_of_omap.
  apply find_some in Hf as [Hc%list_elem_of_In Hm%matches_spec].
  split; [done|]. by exists tag.
Qed.

(** X2. The matches of a list of tags are the matches of its parts, one
    after the other; without components, or without tags, nothing is
    returned. *)
Theorem matcher_app (tags tags' : list string) (components : list Component) :
  matcher (tags ++ tags') components
  = matcher tags components ++ matcher tags' components
  /\ matcher tags [] = []
  /\ matcher [] components = [].
Proof.
  rewrite !matcher_omap. split; [apply omap_app|]. split; [|done].
  induction tags as [|tag tags IH]; [done|exact IH].
Qed.

(** X3. A component placed behind one with the same two names is never
    returned: the matches are those of the list without it. *)
Theorem matcher_ignores_shadowed (tags : list string)
    (before : list Component) (c : Component) (between : list Component)
    (c' : Component) (after : list Component) :
  sameNames c c' ->
  matcher tags (before ++ c :: between ++ c' :: after)
  = matcher tags (before ++ c :: between ++ after)
  /\ Forall (fun tag =>
               find (matches tag) (before ++ c :: between ++ c' :: after)
               = find (matches tag) (before ++ c :: between ++ after))
       tags.
Proof.
  intros [Hp Hk].
  assert (forall tag,
             find (matches tag) (before ++ c :: between ++ c' :: after)
             = find (matches tag) (before ++ c :: between ++ after)) as Hfind.
  { intros tag. rewrite !find_app_list. destruct (find _ before); [done|].
    simpl. destruct (matches tag c) eqn:Hc; [done|].
    rewrite !find_app_list. destruct (find _ between); [done|]. simpl.
    assert (matches tag c' = false) as ->; [|done].
    rewrite <- Hc. unfold matches. by rewrite Hp, Hk. }
  split.
  - rewrite !matcher_omap. apply list_omap_ext.
    apply Forall2_same_length_lookup. split; [done|].
    intros i tag tag' Ht Ht'. rewrite Ht in Ht'. injection Ht' as <-.
    apply Hfind.
  - apply Forall_forall. intros tag _. apply Hfind.
Qed.

(** Two directories gave a [Foo]: only the first one is found. *)
Lemma matcher_ignores_shadowed_witness :
  let first := namedAt "Foo" "foo" "/a/components/Foo.vue" in
  let second := namedAt "Foo" "foo" "/b/components/Foo.vue" in
  sameNames first second
  /\ matcher ["Foo"; "foo"; "LazyFoo"]
       ([] ++ first :: [lazyComponent first] ++ second :: [lazyComponent second])
     = matcher ["Foo"; "foo"; "LazyFoo"]
         ([] ++ first :: [lazyComponent first] ++ [lazyComponent second]).
Proof.
  intros first second.
  assert (sameNames first second) as Hs by done.
  split; [exact Hs|].
  exact (proj1 (matcher_ignores_shadowed ["Foo"; "foo"; "LazyFoo"] [] first
                  [lazyComponent first] second [lazyComponent second] Hs)).
Defined.

(** ** prefixComponent, continued *)

Lemma startsWith_app_l (a b p : string) :
  JS.startsWith a p = true -> JS.startsWith (a +:+ b) p = true.
Proof.
  intros [t ->]%startsWith_spec. rewrite app_assoc_string.
  apply startsWith_app.
Qed.

(** X4. Without prefix, or with the empty prefix, [prefixComponent] returns
    the component as it is. *)
Theorem prefixComponent_without_prefix (c : Component) :
  prefixComponent None c = c /\ prefixComponent (Some "") c = c.
Proof.
  destruct c. unfold prefixComponent. simpl. by rewrite !startsWith_empty.
Qed.

(** X5. After [prefixComponent], the pascal name starts with the prefix as
    written or as cased, and the kebab name with the prefix as written or
    with its kebab form and a dash.  Applying the same prefix again changes
    nothing when the cased form of the prefix starts with the prefix as
    written. *)
Theorem prefixComponent_marks_names (p : string) (c : Component) :
  let c' := prefixComponent (Some p) c in
  (JS.startsWith (pascalName c') p = true
   \/ JS.startsWith (pascalName c') (pascalCase p) = true)
  /\ (JS.startsWith (kebabName c') p = true
      \/ JS.startsWith (kebabName c') (Lodash.kebabCase p +:+ "-") = true)
  /\ (JS.startsWith (pascalCase p) p = true ->
      pascalName (prefixComponent (Some p) c') = pascalName c')
  /\ (JS.startsWith (Lodash.kebabCase p) p = true ->
      kebabName (prefixComponent (Some p) c') = kebabName c').
Proof.
  unfold prefixComponent. simpl.
  destruct (JS.startsWith (pascalName c) p) eqn:Hp,
           (JS.startsWith (kebabName c) p) eqn:Hk;
    rewrite ?Hp, ?Hk; repeat split; auto.
  - right. rewrite <- app_assoc_string. apply startsWith_app.
  - intros Hs. by rewrite startsWith_app_l.
  - right. apply startsWith_app.
  - intros Hs. by rewrite startsWith_app_l.
  - right. apply startsWith_app.
  - right. rewrite <- app_assoc_string. apply startsWith_app.
  - intros Hs. by rewrite startsWith_app_l.
  - intros Hs. by rewrite startsWith_app_l.
Qed.

(** The prefix [App] for the pascal name, [app] for the kebab name. *)
Lemma prefixComponent_marks_names_witness :
  (JS.startsWith (pascalCase "App") "App" = true
   /\ JS.startsWith (Lodash.kebabCase "app") "app" = true)
  /\ pascalName (prefixComponent (Some "App")
                   (prefixComponent (Some "App") (named "Header" "header")))
     = pascalName (prefixComponent (Some "App") (named "Header" "header"))
  /\ kebabName (prefixComponent (Some "app")
                  (prefixComponent (Some "app") (named "Header" "header")))
     = kebabName (prefixComponent (Some "app") (named "Header" "header")).
Proof.
  assert (JS.startsWith (pascalCase "App") "App" = true) as H1
    by (vm_compute; reflexivity).
  assert (JS.startsWith (Lodash.kebabCase "app") "app" = true) as H2
    by (vm_compute; reflexivity).
  split; [done|]. split.
  - exact (proj1 (proj2 (proj2
             (prefixComponent_marks_names "App" (named "Header" "header")))) H1).
  - exact (proj2 (proj2 (proj2
             (prefixComponent_marks_names "app" (named "Header" "header")))) H2).
Defined.

(** ** The depth of a path, continued *)

(** X6. The depth of a path cut at a slash or a backslash is the sum of the
    depths of the two parts; so a separator at either end, or a doubled
    one, does not count. *)
Theorem pathLength_separator (a : string) (c : ascii) (b : string) :
  JS.is_separator c = true ->
  pathLength (a +:+ String c b) = pathLength a + pathLength b
  /\ pathLength (a +:+ String c "") = pathLength a
  /\ pathLength (String c b) = pathLength b
  /\ pathLength (a +:+ String c (String c b)) = pathLength a + pathLength b.
Proof.
  intros Hc.
  assert (forall x y, pathLength (x +:+ String c y) = pathLength x + pathLength y)
    as Hadd.
  { intros x y. unfold pathLength, JS.split_separators.
    rewrite split_go_separator by done. by rewrite filter_app, length_app. }
  split; [apply Hadd|]. split; [|split].
  - rewrite Hadd. change (pathLength "") with 0. lia.
  - change (String c b) with ("" +:+ String c b). rewrite Hadd.
    change (pathLength "") with 0. lia.
  - rewrite Hadd. change (String c b) with ("" +:+ String c b).
    rewrite Hadd. change (pathLength "") with 0. lia.
Qed.

(** A Windows path under a POSIX one. *)
Lemma pathLength_separator_witness :
  JS.is_separator JS.backslash = true
  /\ pathLength ("/src/components" +:+ String JS.backslash "base") = 3.
Proof.
  assert (JS.is_separator JS.backslash = true) as Hc by done.
  split; [exact Hc|].
  rewrite (proj1 (pathLength_separator "/src/components" JS.backslash "base" Hc)).
  vm_compute; reflexivity.
Defined.

(** ** The sort, continued *)

Lemma sort_sorted_id {A} (key : A -> nat) (l : list A) :
  StronglySorted (deeper_first key) l -> JS.sort (by_key_desc key) l = l.
Proof.
  induction 1 as [|x l Hl IH Hx]; [done|]. simpl. rewrite IH.
  destruct l as [|y l]; [done|]. simpl.
  apply Forall_cons in Hx as [Hy _]. unfold deeper_first in Hy.
  unfold by_key_desc at 1.
  destruct (Z.leb_spec (Z.of_nat (key y) - Z.of_nat (key x)) 0); [done|lia].
Qed.

(** X7. Sorting is stable: an array that is already sorted deepest first is
    left as it is, and so is the array that a first call left. *)
Theorem dirs_sort_idempotent (H H' : Host) (dirs : list ScanDir)
    (srcDir srcDir' : string) :
  dirsAfter (scanComponents (H := H')
               (dirsAfter (scanComponents (H := H) dirs srcDir)) srcDir')
  = dirsAfter (scanComponents (H := H) dirs srcDir)
  /\ (StronglySorted (deeper_first (fun d => pathLength (path d))) dirs ->
      dirsAfter (scanComponents (H := H) dirs srcDir) = dirs).
Proof.
  simpl. split.
  - apply (sort_sorted_id (fun d => pathLength (path d))), sortDirs_sorted.
  - apply (sort_sorted_id (fun d => pathLength (path d))).
Qed.

(** Two roots of depth two, then one of depth one. *)
Lemma dirs_sort_idempotent_witness :
  let dirs := twoRoots ++ [plainDir "/a"] in
  StronglySorted (deeper_first (fun d => pathLength (path d))) dirs
  /\ dirsAfter (scanComponents (H := twoRootsHost) dirs "/") = dirs.
Proof.
  intros dirs.
  assert (StronglySorted (deeper_first (fun d => pathLength (path d))) dirs)
    as Hs by (repeat constructor; vm_compute; lia).
  split; [exact Hs|].
  exact (proj2 (dirs_sort_idempotent twoRootsHost twoRootsHost dirs "/" "/") Hs).
Defined.

(** ** The loops only add *)

Section Growth.
Context `{Host}.

Lemma scanFile_grows d srcDir st _file st' :
  scanFile d srcDir st _file = Ok st' ->
  (exists cs ws,
      components st'.1 = components st.1 ++ cs
      /\ console st'.1 = console st.1 ++ ws)
  /\ later st.1 st'.1.
Proof.
  intros Hstep%scanFile_step.
  destruct Hstep as [run names Hs|run names Hs Hin
                    |run names other p n Hs Hin Hn|run names _c p n Hs Hin Hn Hc];
    simpl.
  - split; [exists [], []; by rewrite !app_nil_r|].
    split; [done|exists []; by rewrite app_nil_r].
  - split; [exists [], []; by rewrite !app_nil_r|].
    split; [done|exists []; by rewrite app_nil_r].
  - split.
    + exists [], [collisionWarning n p other]. split; [by rewrite app_nil_r|done].
    + split; [set_solver|exists []; by rewrite app_nil_r].
  - split.
    + exists (emitted _c), []. split; [done|by rewrite app_nil_r].
    + split; [set_solver|exists []; by rewrite app_nil_r].
Qed.

Lemma later_refl run : later run run.
Proof. split; [done|]. exists []. by rewrite app_nil_r. Qed.

Lemma later_trans run1 run2 run3 :
  later run1 run2 -> later run2 run3 -> later run1 run3.
Proof.
  intros [Hp1 [m1 Hs1]] [Hp2 [m2 Hs2]]. split; [by etrans|].
  exists (m1 ++ m2). by rewrite Hs2, Hs1, app_assoc.
Qed.

Lemma scanFiles_grows d srcDir files st st' :
  scanFiles d srcDir files st = Ok st' ->
  (exists cs ws,
      components st'.1 = components st.1 ++ cs
      /\ console st'.1 = console st.1 ++ ws)
  /\ later st.1 st'.1 /\ scannedPaths st'.1 = scannedPaths st.1.
Proof.
  revert st. induction files as [|f files IH]; intros st.
  - intros [= <-]. split; [exists [], []; by rewrite !app_nil_r|].
    split; [apply later_refl|done].
  - rewrite scanFiles_cons. intros (st1 & Hf & Hrest)%bind_Ok.
    destruct (scanFiles_trace _ _ _ _ _ Hrest) as (? & [_ Hsc1 _ _ _ _ _]).
    destruct (scanFiles_trace d srcDir [f] st st1) as (? & [_ Hsc0 _ _ _ _ _]).
    { by rewrite scanFiles_cons, Hf. }
    apply scanFile_grows in Hf as [(cs1 & ws1 & Hc1 & Hw1) Hl1].
    apply IH in Hrest as [(cs2 & ws2 & Hc2 & Hw2) [Hl2 _]].
    split; [|split].
    + exists (cs1 ++ cs2), (ws1 ++ ws2).
      by rewrite Hc2, Hc1, Hw2, Hw1, !app_assoc.
    + by eapply later_trans.
    + by rewrite Hsc1, Hsc0.
Qed.

Lemma scanDir_grows d srcDir run run' :
  scanDir d srcDir run = Ok run' ->
  (exists cs ws,
      components run' = components run ++ cs
      /\ console run' = console run ++ ws)
  /\ later run run'.
Proof.
  intros (files & st & _ & Hf & ->)%scanDir_inv.
  apply scanFiles_grows in Hf as [Hg [[Hp _] Hsc]]. split; [exact Hg|].
  split; [exact Hp|]. exists [path d].
  change (scannedPaths (scanned (path d) st.1))
    with (scannedPaths st.1 ++ [path d]).
  by rewrite Hsc.
Qed.

Lemma scanDirs_app dirs dirs' srcDir run :
  scanDirs (dirs ++ dirs') srcDir run
  = scanDirs dirs srcDir run ≫= scanDirs dirs' srcDir.
Proof.
  revert run. induction dirs as [|d dirs IH]; intros run; simpl; [done|].
  destruct (scanDir d srcDir run) as [run1|e]; simpl; [apply IH|done].
Qed.

Lemma scanDirs_grows dirs srcDir run run' :
  scanDirs dirs srcDir run = Ok run' ->
  (exists cs ws,
      components run' = components run ++ cs
      /\ console run' = console run ++ ws)
  /\ later run run'.
Proof.
  revert run. induction dirs as [|d dirs IH]; intros run; simpl.
  - intros [= <-]. split; [exists [], []; by rewrite !app_nil_r|].
    apply later_refl.
  - intros (run1 & Hd & Hrest)%bind_Ok.
    apply scanDir_grows in Hd as [(cs1 & ws1 & Hc1 & Hw1) Hl1].
    apply IH in Hrest as [(cs2 & ws2 & Hc2 & Hw2) Hl2]. split.
    + exists (cs1 ++ cs2), (ws1 ++ ws2).
      by rewrite Hc2, Hc1, Hw2, Hw1, !app_assoc.
    + by eapply later_trans.
Qed.

End Growth.

(** X8. Scanning a list of directories is scanning a first part and then
    the rest from the state reached; what a first part returned, components
    and warnings, is the beginning of what the whole list returns. *)
Theorem scanDirs_extends_the_result `{Host} (dirs dirs' : list ScanDir)
    (srcDir : string) (run run1 run2 : Run) :
  scanDirs (dirs ++ dirs') srcDir run
  = scanDirs dirs srcDir run ≫= scanDirs dirs' srcDir
  /\ (scanDirs dirs srcDir run = Ok run1 ->
      scanDirs (dirs ++ dirs') srcDir run = Ok run2 ->
      exists cs ws,
        components run2 = components run1 ++ cs
        /\ console run2 = console run1 ++ ws).
Proof.
  split; [apply scanDirs_app|]. intros H1. rewrite scanDirs_app, H1, bind_of_Ok.
  intros H2. by apply scanDirs_grows in H2 as [? _].
Qed.

(** The nested directory first, then the outer one. *)
Lemma scanDirs_extends_the_result_witness :
  let H : Host := nestedHost in
  let run1 := unwrap (scanDirs [innerDir] "/src" newRun) newRun in
  let run2 := unwrap (scanDirs ([innerDir] ++ [outerDir]) "/src" newRun) newRun in
  (scanDirs [innerDir] "/src" newRun = Ok run1
   /\ scanDirs ([innerDir] ++ [outerDir]) "/src" newRun = Ok run2)
  /\ digest <$> components run1
     = [("Button", "button", "/src/components/base/Button.vue", None);
        ("LazyButton", "lazy-button", "/src/components/base/Button.vue",
         Some true)]
  /\ exists cs ws,
       components run2 = components run1 ++ cs
       /\ console run2 = console run1 ++ ws.
Proof.
  intros H run1 run2.
  assert (scanDirs [innerDir] "/src" newRun = Ok run1) as H1
    by (vm_compute; reflexivity).
  assert (scanDirs ([innerDir] ++ [outerDir]) "/src" newRun = Ok run2) as H2
    by (vm_compute; reflexivity).
  split; [exact (conj H1 H2)|]. split; [vm_compute; reflexivity|].
  exact (proj2 (scanDirs_extends_the_result [innerDir] [outerDir] "/src"
                  newRun run1 run2) H1 H2).
Defined.

(** ** A path is taken up once *)

Section Once.
Context `{Host}.

Lemma alreadyScanned_later run run' p :
  later run run' -> alreadyScanned run p = true -> alreadyScanned run' p = true.
Proof.
  unfold alreadyScanned. intros [_ [more ->]]. rewrite find_app_list.
  by destruct (find _ (scannedPaths run)).
Qed.

Lemma handled_later run run' p :
  later run run' -> handled run p -> handled run' p.
Proof.
  intros Hl [Hs|Hin]; [left; by eapply alreadyScanned_later|right].
  destruct Hl as [Hp _]. set_solver.
Qed.

Lemma scanFile_handles d srcDir st _file st' :
  scanFile d srcDir st _file = Ok st' -> handled st'.1 (join (path d) _file).
Proof.
  intros Hstep%scanFile_step.
  destruct Hstep as [run names Hs|run names Hs Hin
                    |run names other p n Hs Hin Hn|run names _c p n Hs Hin Hn Hc];
    simpl.
  - by left.
  - by right.
  - right. set_solver.
  - right. set_solver.
Qed.

Lemma scanFile_handled d srcDir st _file :
  handled st.1 (join (path d) _file) -> scanFile d srcDir st _file = Ok st.
Proof.
  intros [Hs|Hin]; [|by apply scanFile_claimed].
  destruct st as [run names]. apply scanFile_step. by constructor.
Qed.

Lemma scanFiles_handles d srcDir files st st' :
  scanFiles d srcDir files st = Ok st' ->
  Forall (fun f => handled st'.1 (join (path d) f)) files.
Proof.
  revert st. induction files as [|f files IH]; intros st; [constructor|].
  rewrite scanFiles_cons. intros (st1 & Hf & Hrest)%bind_Ok.
  constructor; [|by eapply IH].
  apply scanFiles_grows in Hrest as (_ & Hl & _).
  eapply handled_later; [exact Hl|]. by eapply scanFile_handles.
Qed.

Lemma scanFiles_all_handled d srcDir files st :
  Forall (fun f => handled st.1 (join (path d) f)) files ->
  scanFiles d srcDir files st = Ok st.
Proof.
  induction 1 as [|f files Hf _ IH]; [done|].
  by rewrite scanFiles_cons, scanFile_handled, bind_of_Ok.
Qed.

End Once.

(** X9. Once a match with a given path has gone through the loop body,
    whatever became of it (skipped, rejected for its name, or accepted), a
    later match with the same path, from the same directory or from another
    one, changes nothing: no component, no warning, no claim.  The states
    that the loops reach are later states in this sense. *)
Theorem path_taken_up_once `{Host} (d d' : ScanDir) (srcDir srcDir' : string)
    (st st1 st2 : Run * gmap string string) (_file _file' : string) :
  (scanFile d srcDir st _file = Ok st1 ->
   later st1.1 st2.1 ->
   join (path d') _file' = join (path d) _file ->
   scanFile d' srcDir' st2 _file' = Ok st2)
  /\ (forall files sta stb,
        scanFiles d srcDir files sta = Ok stb -> later sta.1 stb.1)
  /\ (forall dirs run run',
        scanDirs dirs srcDir run = Ok run' -> later run run').
Proof.
  split; [|split].
  - intros Hf Hl Hj. apply scanFile_handled. rewrite Hj.
    eapply handled_later; [exact Hl|]. by eapply scanFile_handles.
  - intros files sta stb Hs. by apply scanFiles_grows in Hs as (_ & Hl & _).
  - intros dirs run run' Hs. by apply scanDirs_grows in Hs as [_ Hl].
Qed.

(** [Button.vue] of the nested directory, met again as [base/Button.vue]
    of the outer one. *)
Lemma path_taken_up_once_witness :
  let H : Host := nestedHost in
  let st1 := unwrap (scanFile innerDir "/src" (newRun, ∅) "Button.vue")
               (newRun, ∅) in
  let st2 := (unwrap (scanDir innerDir "/src" newRun) newRun,
              (∅ : gmap string string)) in
  (scanFile innerDir "/src" (newRun, ∅) "Button.vue" = Ok st1
   /\ later st1.1 st2.1
   /\ join (path outerDir) "base/Button.vue" = join (path innerDir) "Button.vue")
  /\ scanFile outerDir "/src" st2 "base/Button.vue" = Ok st2.
Proof.
  intros H st1 st2.
  assert (scanFile innerDir "/src" (newRun, ∅) "Button.vue" = Ok st1) as H1
    by (vm_compute; reflexivity).
  assert (later st1.1 st2.1) as H2.
  { split.
    - apply (bool_decide_eq_true_1 _). vm_compute; reflexivity.
    - exists ["/src/components/base"]. vm_compute; reflexivity. }
  assert (join (path outerDir) "base/Button.vue"
          = join (path innerDir) "Button.vue") as H3
    by (vm_compute; reflexivity).
  split; [exact (conj H1 (conj H2 H3))|].
  exact (proj1 (path_taken_up_once innerDir outerDir "/src" "/src"
                  (newRun, ∅) st1 st2 "Button.vue" "base/Button.vue")
           H1 H2 H3).
Defined.

(** X10. A directory that was scanned and is scanned again later in the
    run, under any source root, adds nothing: the state gets one more
    scanned root and is otherwise the same. *)
Theorem scanning_again_adds_nothing `{Host} (d : ScanDir)
    (srcDir srcDir' : string) (run run1 run2 : Run) :
  scanDir d srcDir run = Ok run1 ->
  later run1 run2 ->
  scanDir d srcDir' run2 = Ok (scanned (path d) run2)
  /\ components (scanned (path d) run2) = components run2
  /\ console (scanned (path d) run2) = console run2.
Proof.
  intros (files & st & Hg & Hf & ->)%scanDir_inv Hl. split; [|done].
  apply scanDir_inv. exists files, (run2, ∅). split; [done|]. split; [|done].
  apply scanFiles_all_handled.
  eapply Forall_impl; [exact (scanFiles_handles _ _ _ _ _ Hf)|]. simpl.
  intros f Hh. eapply handled_later; [exact Hl|].
  eapply handled_later; [|exact Hh].
  split; [done|]. by exists [path d].
Qed.

(** The directory of the collision, listed twice. *)
Lemma scanning_again_adds_nothing_witness :
  let H : Host := collidingHost in
  let run1 := unwrap (scanDir collidingDir "/src" newRun) newRun in
  (scanDir collidingDir "/src" newRun = Ok run1 /\ later run1 run1)
  /\ scanDir collidingDir "/other" run1 = Ok (scanned (path collidingDir) run1).
Proof.
  intros H run1.
  assert (scanDir collidingDir "/src" newRun = Ok run1) as H1
    by (vm_compute; reflexivity).
  assert (later run1 run1) as H2 by apply later_refl.
  split; [exact (conj H1 H2)|].
  exact (proj1 (scanning_again_adds_nothing collidingDir "/src" "/other"
                  newRun run1 run1 H1 H2)).
Defined.

(** ** Failures of the host and of the hooks *)

Lemma scanDirs_throw `{Host} pre d post srcDir run0 run e :
  scanDirs pre srcDir run0 = Ok run ->
  scanDir d srcDir run = Throw e ->
  scanDirs (pre ++ d :: post) srcDir run0 = Throw e.
Proof.
  intros Hpre Hd. rewrite scanDirs_app, Hpre, bind_of_Ok. simpl. by rewrite Hd.
Qed.

(** X11. When [globby] throws for a directory, or a hook throws for a file
    that is about to be accepted, and the run had gone well up to there, the
    run ends with that exception and returns no component. *)
Theorem upstream_failure_propagates `{Host} (dirs : list ScanDir)
    (srcDir : string) (pre : list ScanDir) (d : ScanDir) (post : list ScanDir)
    (run : Run) (e : string) :
  dirsAfter (scanComponents dirs srcDir) = pre ++ d :: post ->
  scanDirs pre srcDir newRun = Ok run ->
  (globby (pattern d) (path d) (default [] (ignore d)) = Throw e ->
   completion (scanComponents dirs srcDir) = Throw e)
  /\ (forall before _file after st hook,
        globby (pattern d) (path d) (default [] (ignore d))
        = Ok (before ++ _file :: after) ->
        scanFiles d srcDir before (run, ∅) = Ok st ->
        alreadyScanned st.1 (join (path d) _file) = false ->
        join (path d) _file ∉ filePaths st.1 ->
        st.2 !! resolveName (path d) (join (path d) _file) = None ->
        extendComponent d = Some hook ->
        hook (draftComponent d srcDir (join (path d) _file)
                (resolveName (path d) (join (path d) _file))) = Throw e ->
        completion (scanComponents dirs srcDir) = Throw e).
Proof.
  intros Hsorted Hpre.
  assert (forall e', scanDir d srcDir run = Throw e' ->
                     completion (scanComponents dirs srcDir) = Throw e') as Hend.
  { intros e' Hd. simpl in *. rewrite Hsorted.
    by rewrite (scanDirs_throw pre d post srcDir newRun run e'). }
  split.
  - intros Hg. apply Hend. unfold scanDir. by rewrite Hg.
  - intros before _file after [run' names] hook Hg Hb Hs Hin Hn Hx Hh.
    apply Hend. unfold scanDir. rewrite Hg, bind_of_Ok.
    rewrite scanFiles_app, Hb, bind_of_Ok, scanFiles_cons.
    simpl in Hs, Hin, Hn. unfold scanFile. rewrite Hs.
    rewrite bool_decide_false by done. rewrite Hn.
    unfold extend. rewrite Hx, Hh. done.
Qed.

(** A root that cannot be read, after one that can; and a hook that throws
    on the first file. *)
Lemma upstream_failure_propagates_witness :
  (let H : Host := brokenHost in
   let dirs := [plainDir "/src/components"; plainDir "/src/broken"] in
   let run := unwrap (scanDirs [plainDir "/src/components"] "/src" newRun) newRun in
   (dirsAfter (scanComponents dirs "/src")
    = [plainDir "/src/components"] ++ plainDir "/src/broken" :: []
    /\ scanDirs [plainDir "/src/components"] "/src" newRun = Ok run
    /\ length (components run) = 2
    /\ globby (pattern (plainDir "/src/broken")) (path (plainDir "/src/broken"))
         (default [] (ignore (plainDir "/src/broken"))) = Throw "EACCES")
   /\ completion (scanComponents dirs "/src") = Throw "EACCES")
  /\ (let H : Host := headerHost in
      completion (scanComponents [throwingDir] "/src") = Throw "hook failed").
Proof.
  split.
  - intros H dirs run.
    assert (dirsAfter (scanComponents dirs "/src")
            = [plainDir "/src/components"] ++ plainDir "/src/broken" :: [])
      as H1 by done.
    assert (scanDirs [plainDir "/src/components"] "/src" newRun = Ok run) as H2
      by (vm_compute; reflexivity).
    assert (length (components run) = 2) as H3 by (vm_compute; reflexivity).
    assert (globby (pattern (plainDir "/src/broken")) (path (plainDir "/src/broken"))
              (default [] (ignore (plainDir "/src/broken"))) = Throw "EACCES")
      as H4 by (vm_compute; reflexivity).
    split; [exact (conj H1 (conj H2 (conj H3 H4)))|].
    exact (proj1 (upstream_failure_propagates dirs "/src"
                    [plainDir "/src/components"] (plainDir "/src/broken") []
                    run "EACCES" H1 H2) H4).
  - intros H.
    refine (proj2 (upstream_failure_propagates [throwingDir] "/src"
                     [] throwingDir [] newRun "hook failed" eq_refl eq_refl)
              [] "Header.vue" [] (newRun, ∅) (fun _ => Throw "hook failed")
              _ _ _ _ _ _ _); try (vm_compute; reflexivity).
    apply not_elem_of_empty.
Defined.

(** ** The import fields *)




(** ** What the books depend on *)

Section Books.
Context `{Host}.

Lemma scanFile_sameBooks d d' srcDir srcDir' st st' _file st1 st1' :
  path d = path d' -> sameBooks st st' ->
  scanFile d srcDir st _file = Ok st1 ->
  scanFile d' srcDir' st' _file = Ok st1' ->
  sameBooks st1 st1'.
Proof.
  destruct st as [run names], st' as [run' names'].
  intros Hpath (Hfp & Hsp & Hco & Hn & Hlen). simpl in *. subst names'.
  unfold scanFile, alreadyScanned. rewrite <- Hpath, <- Hsp, <- Hfp.
  destruct (match find _ (scannedPaths run) with
            | Some d0 => JS.truthy d0
            | None => false
            end).
  { intros [= <-] [= <-]. by repeat split. }
  case_bool_decide.
  { intros [= <-] [= <-]. by repeat split. }
  destruct (names !! _).
  { intros [= <-] [= <-]. repeat split; simpl; congruence. }
  intros (c & Hc & [= <-])%bind_Ok (c' & Hc' & [= <-])%bind_Ok.
  repeat split; simpl; try congruence. rewrite !length_app. simpl. lia.
Qed.

Lemma scanFiles_sameBooks d d' srcDir srcDir' files st st' st1 st1' :
  path d = path d' -> sameBooks st st' ->
  scanFiles d srcDir files st = Ok st1 ->
  scanFiles d' srcDir' files st' = Ok st1' ->
  sameBooks st1 st1'.
Proof.
  intros Hpath. revert st st'.
  induction files as [|f files IH]; intros st st' Hs.
  - by intros [= <-] [= <-].
  - rewrite !scanFiles_cons.
    intros (st2 & Hf & Hrest)%bind_Ok (st2' & Hf' & Hrest')%bind_Ok.
    eapply IH; [|exact Hrest|exact Hrest'].
    by eapply scanFile_sameBooks.
Qed.

Lemma scanDir_sameBooks d d' srcDir srcDir' run run' run1 run1' :
  sameScan d d' -> sameBooks (run, ∅) (run', ∅) ->
  scanDir d srcDir run = Ok run1 ->
  scanDir d' srcDir' run' = Ok run1' ->
  sameBooks (run1, ∅) (run1', ∅).
Proof.
  intros (Hpath & Hpat & Hign) Hs.
  intros (files & st & Hg & Hf & ->)%scanDir_inv
         (files' & st' & Hg' & Hf' & ->)%scanDir_inv.
  rewrite <- Hpath, <- Hpat, <- Hign, Hg in Hg'. injection Hg' as <-.
  destruct (scanFiles_sameBooks _ _ _ _ _ _ _ _ _ Hpath Hs Hf Hf')
    as (Hfp & Hsp & Hco & _ & Hlen).
  repeat split; simpl; congruence.
Qed.

Lemma scanDirs_sameBooks dirs dirs' srcDir srcDir' run run' run1 run1' :
  Forall2 sameScan dirs dirs' -> sameBooks (run, ∅) (run', ∅) ->
  scanDirs dirs srcDir run = Ok run1 ->
  scanDirs dirs' srcDir' run' = Ok run1' ->
  sameBooks (run1, ∅) (run1', ∅).
Proof.
  intros Hdirs. revert run run'.
  induction Hdirs as [|d d' dirs dirs' Hd _ IH]; intros run run' Hs; simpl.
  - by intros [= <-] [= <-].
  - intros (run2 & Hd1 & Hrest)%bind_Ok (run2' & Hd1' & Hrest')%bind_Ok.
    eapply IH; [|exact Hrest|exact Hrest'].
    by eapply scanDir_sameBooks.
Qed.

End Books.

Lemma insert_by_Forall2 {A} (R : A -> A -> Prop) (key : A -> nat) x x' l l' :
  (forall a a', R a a' -> key a = key a') ->
  R x x' -> Forall2 R l l' ->
  Forall2 R (JS.insert_by (by_key_desc key) x l)
    (JS.insert_by (by_key_desc key) x' l').
Proof.
  intros Hkey Hx. induction 1 as [|y y' l l' Hy Hl IH]; simpl.
  - by repeat constructor.
  - unfold by_key_desc at 1 3.
    rewrite <- (Hkey _ _ Hx), <- (Hkey _ _ Hy).
    destruct (_ <=? _)%Z; by repeat constructor.
Qed.

Lemma sort_Forall2 {A} (R : A -> A -> Prop) (key : A -> nat) l l' :
  (forall a a', R a a' -> key a = key a') ->
  Forall2 R l l' ->
  Forall2 R (JS.sort (by_key_desc key) l) (JS.sort (by_key_desc key) l').
Proof.
  intros Hkey. induction 1; simpl; [constructor|].
  by apply insert_by_Forall2.
Qed.

(** X13. The warnings of a run and the number of its components depend on
    the roots, patterns and ignore lists only: two lists of directories that
    agree on these, read on the same host, give the same warnings and as
    many components, whatever their prefixes, global flags, hooks and source
    roots (when both runs complete). *)
Theorem books_ignore_prefix_and_hooks `{Host} (dirs dirs' : list ScanDir)
    (srcDir srcDir' : string) (comps comps' : list Component)
    (warnings warnings' : list string) :
  Forall2 sameScan dirs dirs' ->
  completion (scanComponents dirs srcDir) = Ok (comps, warnings) ->
  completion (scanComponents dirs' srcDir') = Ok (comps', warnings') ->
  warnings = warnings' /\ length comps = length comps'.
Proof.
  intros Hdirs. simpl.
  intros (run & Hrun & [= <- <-])%bind_Ok (run' & Hrun' & [= <- <-])%bind_Ok.
  assert (Forall2 sameScan (JS.sort sortDirsByPathLength dirs)
            (JS.sort sortDirsByPathLength dirs')) as Hsorted.
  { apply (sort_Forall2 sameScan (fun d => pathLength (path d))); [|done].
    by intros a a' (-> & _). }
  destruct (scanDirs_sameBooks _ _ _ _ newRun newRun _ _ Hsorted
              ltac:(by repeat split) Hrun Hrun')
    as (_ & _ & Hco & _ & Hlen).
  done.
Qed.

(** The directory of the collision, bare and with prefix and hook. *)
Lemma books_ignore_prefix_and_hooks_witness :
  let H : Host := collidingHost in
  let outcome := completion (scanComponents [collidingDir] "/src") in
  let outcome' := completion (scanComponents [renamingDir] "/other") in
  (Forall2 sameScan [collidingDir] [renamingDir]
   /\ outcome = Ok (unwrap outcome ([], []))
   /\ outcome' = Ok (unwrap outcome' ([], [])))
  /\ (unwrap outcome ([], [])).2 = (unwrap outcome' ([], [])).2
  /\ length (unwrap outcome ([], [])).2 = 1
  /\ length (unwrap outcome ([], [])).1 = length (unwrap outcome' ([], [])).1.
Proof.
  intros H outcome outcome'.
  assert (Forall2 sameScan [collidingDir] [renamingDir]) as H1
    by (by repeat constructor).
  assert (outcome = Ok ((unwrap outcome ([], [])).1, (unwrap outcome ([], [])).2))
    as H2 by (vm_compute; reflexivity).
  assert (outcome' = Ok ((unwrap outcome' ([], [])).1, (unwrap outcome' ([], [])).2))
    as H3 by (vm_compute; reflexivity).
  split; [split; [exact H1|split; vm_compute; reflexivity]|].
  destruct (books_ignore_prefix_and_hooks [collidingDir] [renamingDir]
              "/src" "/other" _ _ _ _ H1 H2 H3) as [Hw Hl].
  split; [exact Hw|]. split; [vm_compute; reflexivity|exact Hl].
Defined.

(** ** What the warnings say *)

Section WarningFacts.
Context `{Host}.

Lemma collisionOf_later d run run' w :
  filePaths run ⊆ filePaths run' -> collisionOf d run w -> collisionOf d run' w.
Proof.
  intros Hsub (p & other & -> & Hne & Hn & Hp & Ho).
  exists p, other. repeat split; try done; set_solver.
Qed.

Lemma scanFile_warnings d srcDir st _file st' :
  namesClaimed d st ->
  scanFile d srcDir st _file = Ok st' ->
  namesClaimed d st'
  /\ exists ws,
       console st'.1 = console st.1 ++ ws /\ Forall (collisionOf d st'.1) ws.
Proof.
  intros Hinv Hstep%scanFile_step.
  destruct Hstep as [run names Hs|run names Hs Hin
                    |run names other p n Hs Hin Hn|run names _c p n Hs Hin Hn Hc];
    simpl in *.
  - split; [done|]. exists []. by rewrite app_nil_r.
  - split; [done|]. exists []. by rewrite app_nil_r.
  - destruct (Hinv _ _ Hn) as [Ho Hr]. simpl in Ho. split.
    + intros n' q Hq. destruct (Hinv _ _ Hq) as [Hq1 Hq2]. simpl in *.
      split; [set_solver|done].
    + exists [collisionWarning n p other]. split; [done|].
      constructor; [|constructor]. exists p, other. simpl.
      repeat split; try done; set_solver.
  - split.
    + intros n' q. simpl. rewrite lookup_insert. case_decide as Hnn.
      * intros [= <-]. subst n'. split; [set_solver|done].
      * intros Hq. destruct (Hinv _ _ Hq) as [Hq1 Hq2]. simpl in *.
        split; [set_solver|done].
    + exists []. by rewrite app_nil_r.
Qed.

Lemma scanFiles_warnings d srcDir files st st' :
  namesClaimed d st ->
  scanFiles d srcDir files st = Ok st' ->
  namesClaimed d st'
  /\ exists ws,
       console st'.1 = console st.1 ++ ws /\ Forall (collisionOf d st'.1) ws.
Proof.
  revert st. induction files as [|f files IH]; intros st Hinv.
  - intros [= <-]. split; [done|]. exists []. by rewrite app_nil_r.
  - rewrite scanFiles_cons. intros (st1 & Hf & Hrest)%bind_Ok.
    destruct (scanFile_warnings _ _ _ _ _ Hinv Hf) as (Hinv1 & ws1 & Hw1 & Hc1).
    destruct (IH _ Hinv1 Hrest) as (Hinv2 & ws2 & Hw2 & Hc2).
    split; [done|]. exists (ws1 ++ ws2). split.
    + by rewrite Hw2, Hw1, app_assoc.
    + apply Forall_app. split; [|done].
      apply scanFiles_grows in Hrest as (_ & [Hsub _] & _).
      eapply Forall_impl; [exact Hc1|]. intros w.
      by apply collisionOf_later.
Qed.

Lemma scanDirs_warnings dirs srcDir run run' :
  scanDirs dirs srcDir run = Ok run' ->
  exists ws,
    console run' = console run ++ ws
    /\ Forall (fun w => exists d, d ∈ dirs /\ collisionOf d run' w) ws.
Proof.
  revert run. induction dirs as [|d dirs IH]; intros run; simpl.
  - intros [= <-]. exists []. by rewrite app_nil_r.
  - intros (run1 & Hd & Hrest)%bind_Ok.
    apply scanDir_inv in Hd as (files & st & _ & Hf & ->).
    destruct (scanFiles_warnings d srcDir files (run, ∅) st) as (_ & ws1 & Hw1 & Hc1);
      [intros n q Hq; simpl in Hq; by rewrite lookup_empty in Hq|done|].
    destruct (IH _ Hrest) as (ws2 & Hw2 & Hc2).
    apply scanDirs_grows in Hrest as (_ & [Hsub _]). simpl in *.
    exists (ws1 ++ ws2). split.
    + by rewrite Hw2, Hw1, app_assoc.
    + apply Forall_app. split.
      * eapply Forall_impl; [exact Hc1|]. intros w Hw. exists d.
        split; [apply elem_of_cons; by left|].
        by eapply collisionOf_later.
      * eapply Forall_impl; [exact Hc2|]. intros w (d' & Hd' & Hw).
        exists d'. split; [apply elem_of_cons; by right|done].
Qed.

End WarningFacts.

(** X14. Every warning of a completed run is the collision message of one
    of the directories, for two different file paths that resolve to the
    same name under the root of that directory. *)
Theorem warnings_name_two_files `{Host} (dirs : list ScanDir) (srcDir : string)
    (comps : list Component) (warnings : list string) :
  completion (scanComponents dirs srcDir) = Ok (comps, warnings) ->
  Forall
    (fun w =>
       exists d p other,
         d ∈ dirs
         /\ w = collisionWarning (resolveName (path d) p) p other
         /\ p <> other
         /\ resolveName (path d) other = resolveName (path d) p)
    warnings.
Proof.
  simpl. intros (run & Hrun & [= <- <-])%bind_Ok.
  destruct (scanDirs_warnings _ _ _ _ Hrun) as (ws & Hw & Hc).
  simpl in Hw. rewrite Hw. eapply Forall_impl; [exact Hc|]. simpl.
  intros w (d & Hd & p & other & -> & Hne & Hn & _). exists d, p, other.
  split; [|done]. by rewrite (sort_perm sortDirsByPathLength dirs).
Qed.

(** The one warning of the directory of the collision. *)
Lemma warnings_name_two_files_witness :
  let H : Host := collidingHost in
  let outcome := completion (scanComponents [collidingDir] "/src") in
  outcome = Ok (unwrap outcome ([], []))
  /\ (unwrap outcome ([], [])).2
     = [collisionWarning "Foo" "/src/components/foo/Foo.vue"
          "/src/components/foo/index.vue"]
  /\ Forall
       (fun w =>
          exists d p other,
            d ∈ [collidingDir]
            /\ w = collisionWarning (resolveName (path d) p) p other
            /\ p <> other
            /\ resolveName (path d) other = resolveName (path d) p)
       (unwrap outcome ([], [])).2.
Proof.
  intros H outcome.
  assert (outcome = Ok ((unwrap outcome ([], [])).1, (unwrap outcome ([], [])).2))
    as Hrun by (vm_compute; reflexivity).
  split; [vm_compute; reflexivity|]. split; [vm_compute; reflexivity|].
  exact (warnings_name_two_files [collidingDir] "/src" _ _ Hrun).
Defined.

(** ** The pairs of the result, by position *)

Lemma pairs_lookup {A B} (f g : A -> B) (l : list A) (i : nat) :
  flat_map (fun a => [f a; g a]) l !! (2 * i) = f <$> l !! i
  /\ flat_map (fun a => [f a; g a]) l !! (2 * i + 1) = g <$> l !! i.
Proof.
  revert i. induction l as [|a l IH]; intros i; [done|].
  destruct i as [|i]; [done|].
  replace (2 * S i) with (S (S (2 * i))) by lia.
  replace (S (S (2 * i)) + 1) with (S (S (2 * i + 1))) by lia.
  simpl. apply IH.
Qed.

Lemma pairs_length {A B} (f g : A -> B) (l : list A) :
  length (flat_map (fun a => [f a; g a]) l) = 2 * length l.
Proof. induction l as [|a l IH]; simpl; lia. Qed.

(** X15. Whatever the hooks return, the result of a completed run has an
    even length, and the components at positions [2 i] and [2 i + 1] come
    from the same file: they agree on [filePath], [shortPath], [chunkName],
    [export], [global] and [asyncImport]; the second one has [async] set,
    its kebab name starts with [lazy] and its pascal name with [Lazy] or
    [lazy]. *)
Theorem result_is_made_of_pairs `{Host} (dirs : list ScanDir) (srcDir : string)
    (comps : list Component) (warnings : list string) :
  completion (scanComponents dirs srcDir) = Ok (comps, warnings) ->
  (exists n, length comps = 2 * n)
  /\ forall i e l,
       comps !! (2 * i) = Some e -> comps !! (2 * i + 1) = Some l ->
       filePath l = filePath e /\ shortPath l = shortPath e
       /\ chunkName l = chunkName e /\ export l = export e
       /\ global l = global e /\ asyncImport l = asyncImport e
       /\ async l = Some true
       /\ JS.startsWith (kebabName l) "lazy" = true
       /\ (JS.startsWith (pascalName l) "Lazy" = true
           \/ JS.startsWith (pascalName l) "lazy" = true).
Proof.
  intros Hrun.
  destruct (completion_trace _ _ _ _ Hrun) as (acc & -> & _ & _).
  unfold pairsOf, emitted. split.
  - eexists. apply pairs_length.
  - intros i e l.
    destruct (pairs_lookup (fun a : ScanDir * (string * Component) =>
                              eagerComponent a.2.2)
                (fun a => lazyComponent a.2.2) acc i) as [-> ->].
    destruct (acc !! i) as [a|]; [|done]. simpl. intros [= <-] [= <-].
    repeat split.
    + unfold lazyComponent, prefixComponent. simpl.
      destruct (JS.startsWith (kebabName a.2.2) LAZY_PREFIX) eqn:Hk; [done|].
      rewrite kebabCase_lazy. apply startsWith_app.
    + rewrite lazy_pascalName.
      destruct (JS.startsWith (pascalName a.2.2) "lazy") eqn:Hp;
        [by right|left; apply startsWith_app].
Qed.

(** The two roots with a [Foo.vue] each. *)
Lemma result_is_made_of_pairs_witness :
  let H : Host := twoRootsHost in
  let outcome := completion (scanComponents twoRoots "/") in
  outcome = Ok (unwrap outcome ([], []))
  /\ exists e l,
       (unwrap outcome ([], [])).1 !! (2 * 1) = Some e
       /\ (unwrap outcome ([], [])).1 !! (2 * 1 + 1) = Some l
       /\ filePath e = "/b/components/Foo.vue"
       /\ filePath l = filePath e
       /\ JS.startsWith (kebabName l) "lazy" = true.
Proof.
  intros H outcome.
  assert (outcome = Ok ((unwrap outcome ([], [])).1, (unwrap outcome ([], [])).2))
    as Hrun by (vm_compute; reflexivity).
  split; [vm_compute; reflexivity|].
  assert (exists e, (unwrap outcome ([], [])).1 !! (2 * 1) = Some e
                    /\ filePath e = "/b/components/Foo.vue") as (e & He & Hp).
  { eexists. split; vm_compute; reflexivity. }
  assert (exists l, (unwrap outcome ([], [])).1 !! (2 * 1 + 1) = Some l)
    as (l & Hl).
  { eexists. vm_compute; reflexivity. }
  exists e, l.
  destruct (proj2 (result_is_made_of_pairs twoRoots "/" _ _ Hrun) 1 e l He Hl)
    as (Hf & _ & _ & _ & _ & _ & _ & Hk & _).
  by repeat split.
Defined.

(** ** The short path *)

Lemma replace_unfold (s pat rep : string) :
  JS.replace s pat rep
  = if JS.startsWith s pat then rep +:+ JS.slice_from (String.length pat) s
    else match s with
         | "" => ""
         | String a s' => String a (JS.replace s' pat rep)
         end.
Proof. by destruct s. Qed.

Lemma slice_from_app (a t : string) :
  JS.slice_from (String.length a) (a +:+ t) = t.
Proof. induction a as [|x a IH]; [by destruct t|exact IH]. Qed.

Lemma replace_leading (a t : string) : JS.replace (a +:+ t) a "" = t.
Proof. by rewrite replace_unfold, startsWith_app, slice_from_app. Qed.

Lemma replace_all_slash_idem (s : string) :
  JS.replace_all JS.backslash "/" (JS.replace_all JS.backslash "/" s)
  = JS.replace_all JS.backslash "/" s.
Proof.
  induction s as [|a s IH]; [done|]. simpl.
  destruct (Ascii.eqb a JS.backslash) eqn:Ha.
  - change ("/" +:+ ?x) with (String "/"%char x). simpl. by rewrite IH.
  - simpl. by rewrite Ha, IH.
Qed.

Lemma strip_leading_slash_free (s : string) :
  JS.replace_all JS.backslash "/" s = s ->
  JS.replace_all JS.backslash "/" (JS.strip_leading "/"%char s)
  = JS.strip_leading "/"%char s.
Proof.
  destruct s as [|a s]; [done|]. simpl.
  destruct (Ascii.eqb a JS.backslash) eqn:Ha.
  - change ("/" +:+ ?x) with (String "/"%char x).
    intros [= <- Hs]. done.
  - intros [= Hs]. destruct (Ascii.eqb a "/"); [done|]. simpl.
    by rewrite Ha, Hs.
Qed.

(** X16. The short path of a draft never holds a backslash.  For a file
    path that starts with the source root it is what follows the root, with
    slashes for backslashes and without one leading slash: for
    [srcDir/rest] it is [rest]. *)
Theorem shortPath_is_relative `{Host} (d : ScanDir)
    (srcDir filePath t name : string) :
  JS.replace_all JS.backslash "/"
    (shortPath (draftComponent d srcDir filePath name))
  = shortPath (draftComponent d srcDir filePath name)
  /\ shortPath (draftComponent d srcDir (srcDir +:+ t) name)
     = JS.strip_leading "/"%char (JS.replace_all JS.backslash "/" t)
  /\ (JS.replace_all JS.backslash "/" t = t ->
      shortPath (draftComponent d srcDir (srcDir +:+ "/" +:+ t) name) = t).
Proof.
  unfold draftComponent, prefixComponent. simpl. split; [|split].
  - apply strip_leading_slash_free, replace_all_slash_idem.
  - by rewrite replace_leading.
  - intros Ht. rewrite replace_leading.
    change ("/" +:+ t) with (String "/"%char t). simpl. by rewrite Ht.
Qed.

(** A file two folders under the source root. *)
Lemma shortPath_is_relative_witness :
  let H : Host := collidingHost in
  JS.replace_all JS.backslash "/" "components/foo/index.vue"
  = "components/foo/index.vue"
  /\ shortPath (draftComponent collidingDir "/src"
                  ("/src" +:+ "/" +:+ "components/foo/index.vue") "Foo")
     = "components/foo/index.vue".
Proof.
  intros H.
  assert (JS.replace_all JS.backslash "/" "components/foo/index.vue"
          = "components/foo/index.vue") as Ht by (vm_compute; reflexivity).
  split; [exact Ht|].
  exact (proj2 (proj2 (shortPath_is_relative collidingDir "/src" ""
                         "components/foo/index.vue" "Foo")) Ht).
Defined.

(** ** The roots already scanned *)

(** X17. A path counts as already scanned exactly when the first scanned
    root it starts with is not the empty string; so while the first scanned
    root is empty, no path counts as scanned. *)
Theorem alreadyScanned_first_root (run : Run) (p : string) :
  (alreadyScanned run p = true <->
   exists before root after,
     scannedPaths run = before ++ root :: after
     /\ Forall (fun d => JS.startsWith p d = false) before
     /\ JS.startsWith p root = true
     /\ root <> "")
  /\ (forall rest, scannedPaths run = "" :: rest -> alreadyScanned run p = false).
Proof.
  unfold alreadyScanned. split.
  - destruct (find _ (scannedPaths run)) as [root|] eqn:Hf.
    + apply find_first in Hf as (before & after & E & Hp & Hb). split.
      * intros Ht. exists before, root, after. repeat split; try done.
        by intros ->.
      * intros (before' & root' & after' & E' & Hb' & Hp' & Hr').
        assert (find (fun d => JS.startsWith p d) (scannedPaths run)
                = Some root') as Hf'.
        { apply find_first. by exists before', after'. }
        assert (find (fun d => JS.startsWith p d) (scannedPaths run)
                = Some root) as Hf.
        { apply find_first. by exists before, after. }
        rewrite Hf in Hf'. injection Hf' as <-. by destruct root.
    + split; [done|].
      intros (before' & root' & after' & E' & Hb' & Hp' & Hr').
      assert (find (fun d => JS.startsWith p d) (scannedPaths run)
              = Some root') as Hf'.
      { apply find_first. by exists before', after'. }
      by rewrite Hf in Hf'.
  - intros rest ->. simpl. by rewrite startsWith_empty.
Qed.

(** A run that scanned the empty root first, then [/src]. *)
Lemma alreadyScanned_first_root_witness :
  let run := scanned "/src" (scanned "" newRun) in
  scannedPaths run = "" :: ["/src"]
  /\ alreadyScanned run "/src/components/Header.vue" = false.
Proof.
  intros run.
  assert (scannedPaths run = "" :: ["/src"]) as Hs by done.
  split; [exact Hs|].
  exact (proj2 (alreadyScanned_first_root run "/src/components/Header.vue")
           ["/src"] Hs).
Defined.
